(** * Avalanche peer slots and proof pool

    A shallow embedding of [src/avalanche/peermanager.h] and
    [src/avalanche/proofpool.cpp], and the properties of the slot predicates,
    of the peer manager's [removePeer] and of the proof pool's insertion,
    preference, removal and rescan operations.

    Conventions.
    - [uint64_t] values are integers of [Z]; the code modelled here only
      compares them, so no wrap-around arises.
    - A [ProofRef] is a shared pointer to an immutable proof; the model keeps
      the pointed-to value, and [nullptr] results are [None].
    - The pool is a [boost::multi_index_container] of entries; it is modelled
      by the list of its entries, an iterator by a position in that list, and
      the two indexes by searches over the list.
    - [assert] failures and other ways of leaving a function abnormally are
      results of their own, see [result]. *)

From stdpp Require Import base decidable option list numbers sorting.
From Stdlib Require Import ZArith Lia.

Open Scope Z_scope.

(** ** Slots ([peermanager.h]) *)

Record Slot := mkSlot { start : Z; stop : Z }.

Definition contains (s : Slot) (slot : Z) : bool :=
  (start s <=? slot) && (slot <? stop s).

Definition precedes (s : Slot) (slot : Z) : bool := slot >=? stop s.

Definition follows (s : Slot) (slot : Z) : bool := start s >? slot.

(** The values a [uint64_t] can take. *)
Definition uint64 (x : Z) : Prop := 0 <= x < 2 ^ 64.

(** [static constexpr size_t NO_PEER = ~size_t(0)], for a 64-bit [size_t]. *)
Definition NO_PEER : Z := Z.lnot 0 mod 2 ^ 64.

Record PeerManager := mkPeerManager {
  slots : list Slot;
  slotCount : Z;
  fragmentation : Z
}.

Definition getSlotCount (pm : PeerManager) : Z := slotCount pm.
Definition getFragmentation (pm : PeerManager) : Z := fragmentation pm.

Section RemovePeer.
(** [PeerManager::rescorePeer] is declared in [peermanager.h] and defined
    in a file that is not part of the sources; it is a parameter here. It
    takes the peer index, the new score and the peer manager, and gives the
    peer manager it leaves behind. *)
Variable rescorePeer : nat -> Z -> PeerManager -> PeerManager.

(** [void removePeer(size_t i) { rescorePeer(i, 0); }] *)
Definition removePeer (i : nat) (pm : PeerManager) : PeerManager :=
  rescorePeer i 0 pm.
End RemovePeer.

Close Scope Z_scope.

(** ** Abnormal termination *)

Inductive failure :=
| AssertionFailed   (* an [assert] did not hold *)
| OutOfRange        (* [std::vector::at] past the end *)
| InvalidIterator.  (* dereferencing [end()] *)

Inductive result (A : Type) :=
| Ok (a : A)
| Err (f : failure).
Arguments Ok {A} a.
Arguments Err {A} f.

Global Instance result_ret : MRet result := λ A a, Ok a.
Global Instance result_bind : MBind result := λ A B k r,
  match r with
  | Ok a => k a
  | Err f => Err f
  end.

Global Instance failure_eq_dec : EqDecision failure.
Proof. solve_decision. Defined.

(** ** Proofs, stakes and pool entries *)

Definition ProofId := N.
Bind Scope N_scope with ProofId.

(** [COutPoint]: a transaction identifier and an output number. *)
Record COutPoint := mkOutPoint { GetTxId : N; GetN : N }.

Global Instance COutPoint_eq_dec : EqDecision COutPoint.
Proof. solve_decision. Defined.

(** The proof a [ProofRef] points to. The class is declared outside the
    sources; the pool reads its identifier and its stakes only, each stake
    [s] through [s.getStake().getUTXO()], so a proof is given here by its
    identifier and the outpoints of its stakes, in order. *)
Record ProofRef := mkProof {
  getId : ProofId;
  getStakes : list COutPoint
}.

Global Instance ProofRef_eq_dec : EqDecision ProofRef.
Proof. solve_decision. Defined.

(** An entry is built by [pool.emplace(i, proof)]: the position of a stake
    and the proof that owns it. Its by-output key is the outpoint of that
    stake; [std::vector::at] raises when the position is out of range, which
    is [None] here. *)
Record ProofPoolEntry := mkEntry {
  utxoIndex : nat;
  proof : ProofRef
}.

Global Instance ProofPoolEntry_eq_dec : EqDecision ProofPoolEntry.
Proof. solve_decision. Defined.

Definition getUTXO (e : ProofPoolEntry) : option COutPoint :=
  getStakes (proof e) !! utxoIndex e.

Definition entryId (e : ProofPoolEntry) : ProofId := getId (proof e).

(** The entries of the container, oldest first. *)
Abbreviation ProofPool := (list ProofPoolEntry).

Inductive AddProofStatus := REJECTED | SUCCEED | DUPLICATED.

Global Instance AddProofStatus_eq_dec : EqDecision AddProofStatus.
Proof. solve_decision. Defined.

(** [pool.find(outpoint)] on the by-output index: the position and the entry,
    or [None] for [pool.end()]. *)
Definition find_utxo (o : COutPoint) (pool : ProofPool)
  : option (nat * ProofPoolEntry) :=
  list_find (λ e, getUTXO e = Some o) pool.

(** [poolView.find(proofid)] on the by-proofid index. *)
Definition find_proofid (id : ProofId) (pool : ProofPool)
  : option (nat * ProofPoolEntry) :=
  list_find (λ e, entryId e = id) pool.

(** [pool.emplace(i, proof)]: the by-output index is unique, so the entry is
    added only when no entry has its key; the result is the entry that holds
    the key afterwards, whether the insertion took place, and the pool. *)
Definition emplace (i : nat) (p : ProofRef) (pool : ProofPool)
  : result (ProofPoolEntry * bool * ProofPool) :=
  match getStakes p !! i with
  | None => Err OutOfRange
  | Some o =>
      match find_utxo o pool with
      | Some (_, e) => Ok (e, false, pool)
      | None => let e := mkEntry i p in Ok (e, true, pool ++ [e])
      end
  end.

(** [poolView.erase(proofid)] on the by-proofid index: every entry of that
    proof goes, and their number is returned. *)
Definition erase_proofid (id : ProofId) (pool : ProofPool) : nat * ProofPool :=
  (length (filter (λ e, entryId e = id) pool),
   filter (λ e, entryId e ≠ id) pool).

(** [bool ProofPool::removeProof(ProofRef proof)]; the count converts to
    [bool]. *)
Definition removeProof (p : ProofRef) (pool : ProofPool) : bool * ProofPool :=
  let '(count, pool) := erase_proofid (getId p) pool in
  (negb (count =? 0)%nat, pool).

(** [ProofRef ProofPool::getProof(const ProofId &proofid) const] *)
Definition getProof_proofid (id : ProofId) (pool : ProofPool) : option ProofRef :=
  (λ it, proof it.2) <$> find_proofid id pool.

(** [ProofRef ProofPool::getProof(const COutPoint &outpoint) const] *)
Definition getProof_outpoint (o : COutPoint) (pool : ProofPool) : option ProofRef :=
  (λ it, proof it.2) <$> find_utxo o pool.

(** ** The set of conflicting proofs

    [ConflictingProofSet] is a [std::set] of proofs ordered by
    [ConflictingProofComparator]: its elements are kept in increasing order
    of the comparator, most preferred first, and an element equivalent to
    one of the set (neither ranks ahead of the other) is not inserted. *)

Abbreviation ConflictingProofSet := (list ProofRef).

Section Pool.
(** [ConflictingProofComparator] is defined in [proofcomparator.h], which
    is not part of the sources: [compare a b] holds when [a] is preferred
    to [b]. *)
Variable compare : ProofRef → ProofRef → bool.

(** [conflictingProofs.insert(x)] *)
Fixpoint set_insert (x : ProofRef) (s : ConflictingProofSet)
  : ConflictingProofSet :=
  match s with
  | [] => [x]
  | y :: s' =>
      if compare x y then x :: y :: s'
      else if compare y x then y :: set_insert x s'
      else y :: s'
  end.

(** The loop of [addProofIfNoConflict] that attaches the stakes,
    [for (size_t i = 0; i < proof->getStakes().size(); i++)], over the
    positions still to visit. *)
Fixpoint attachStakes (p : ProofRef) (idxs : list nat) (pool : ProofPool)
    (conflictingProofs : ConflictingProofSet)
  : result (ProofPool * ConflictingProofSet) :=
  match idxs with
  | [] => Ok (pool, conflictingProofs)
  | i :: idxs' =>
      '(e, inserted, pool) ← emplace i p pool;
      attachStakes p idxs' pool
        (if inserted : bool then conflictingProofs
         else set_insert (proof e) conflictingProofs)
  end.

(** The loop of [addProofIfNoConflict] that cleans up after a conflict,
    [for (const auto &s : proof->getStakes())], over the stakes still to
    visit. *)
Fixpoint cleanup (proofid : ProofId) (stakes : list COutPoint)
    (pool : ProofPool) : result ProofPool :=
  match stakes with
  | [] => Ok pool
  | s :: stakes' =>
      match find_utxo s pool with
      | None => Err AssertionFailed
      | Some (it, e) =>
          cleanup proofid stakes'
            (if decide (entryId e = proofid) then delete it pool else pool)
      end
  end.

(** [ProofPool::addProofIfNoConflict(proof, conflictingProofs)]. The
    out-parameter comes in with whatever the caller left in it and is
    returned next to the status and the pool. *)
Definition addProofIfNoConflict (p : ProofRef)
    (conflictingProofs : ConflictingProofSet) (pool : ProofPool)
  : result (AddProofStatus * ConflictingProofSet * ProofPool) :=
  let proofid := getId p in
  let conflictingProofs : ConflictingProofSet := [] in
  if find_proofid proofid pool is Some _
  then Ok (DUPLICATED, conflictingProofs, pool)
  else
    '(pool, conflictingProofs) ←
      attachStakes p (seq 0 (length (getStakes p))) pool conflictingProofs;
    if (0 <? length conflictingProofs)%nat
    then pool ← cleanup proofid (getStakes p) pool;
         Ok (REJECTED, conflictingProofs, pool)
    else Ok (SUCCEED, conflictingProofs, pool).

(** Modelled from the spec: the enumeration [AddProofStatus] is declared in
    [proofpool.h], which is not part of the sources; [!added] is taken when
    the result is [REJECTED], as the spec has it for
    [addProofIfPreferred]. *)
Definition not_added (added : AddProofStatus) : bool :=
  match added with
  | REJECTED => true
  | _ => false
  end.

(** [ProofPool::addProofIfPreferred(proof, conflictingProofs)]. The retry
    goes through the overload of [addProofIfNoConflict] without
    out-parameter, so the caller keeps the conflicts of the first
    attempt. *)
Definition addProofIfPreferred (p : ProofRef)
    (conflictingProofs : ConflictingProofSet) (pool : ProofPool)
  : result (AddProofStatus * ConflictingProofSet * ProofPool) :=
  '(added, conflictingProofs, pool) ←
    addProofIfNoConflict p conflictingProofs pool;
  if not_added added then
    match conflictingProofs with
    | [] => Err InvalidIterator
    | best :: _ =>
        if compare p best then
          let pool :=
            foldl (λ pool conflictingProof,
                     (removeProof conflictingProof pool).2)
                  pool conflictingProofs in
          '(added, _, pool) ← addProofIfNoConflict p [] pool;
          if decide (added = SUCCEED)
          then Ok (added, conflictingProofs, pool)
          else Err AssertionFailed
        else Ok (added, conflictingProofs, pool)
    end
  else Ok (added, conflictingProofs, pool).

(** *** Histories of public calls *)

Inductive call :=
| AddProofIfNoConflict (p : ProofRef)
| AddProofIfPreferred (p : ProofRef)
| RemoveProof (p : ProofRef).

Definition step (c : call) (pool : ProofPool) : result ProofPool :=
  match c with
  | AddProofIfNoConflict p =>
      '(_, _, pool) ← addProofIfNoConflict p [] pool; Ok pool
  | AddProofIfPreferred p =>
      '(_, _, pool) ← addProofIfPreferred p [] pool; Ok pool
  | RemoveProof p => Ok (removeProof p pool).2
  end.

Fixpoint run (calls : list call) (pool : ProofPool) : result ProofPool :=
  match calls with
  | [] => Ok pool
  | c :: calls' => pool ← step c pool; run calls' pool
  end.

(** The pools a program can hold: those left by a history of calls that
    all returned, from the empty pool. *)
Definition reachable (pool : ProofPool) : Prop :=
  ∃ calls, run calls [] = Ok pool.
End Pool.

Section Rescan.
(** [PeerManager::registerProof] is not declared in the [peermanager.h] of
    the sources; it is a parameter here, acting on the peer manager it is
    called on. *)
Variable registerProof : ProofRef → PeerManager → PeerManager.

(** [void ProofPool::rescan(PeerManager &peerManager)]: the entries are
    moved out, the pool is cleared, and the proof of every entry moved out
    is registered. *)
Definition rescan (peerManager : PeerManager) (pool : ProofPool)
  : PeerManager * ProofPool :=
  let previousPool := pool in
  let pool : ProofPool := [] in
  (foldl (λ pm entry, registerProof (proof entry) pm) peerManager previousPool,
   pool).
End Rescan.

(** A comparator to run the model with: the proof with the lowest identifier
    is preferred, which is how the spec has ties broken. *)
Definition compareByProofId (a b : ProofRef) : bool := (getId a <? getId b)%N.

(** ** Notions used to state the properties *)

(** The keys of the by-output index, entry by entry. *)
Definition keys (pool : ProofPool) : list (option COutPoint) := getUTXO <$> pool.

(** No two entries of the pool share a staked output. *)
Definition unique_utxo (pool : ProofPool) : Prop := NoDup (keys pool).

(** What holds of a pool between two public calls: the by-output keys are
    unique, every entry names a stake of its proof, entries with one
    identifier carry one proof, and a proof that has an entry has one for
    each of its stakes. *)
Record pool_inv (pool : ProofPool) : Prop := mkPoolInv {
  inv_unique : unique_utxo pool;
  inv_index : ∀ e, e ∈ pool → is_Some (getUTXO e);
  inv_ids : ∀ e1 e2, e1 ∈ pool → e2 ∈ pool →
            entryId e1 = entryId e2 → proof e1 = proof e2;
  inv_full : ∀ e j, e ∈ pool → (j < length (getStakes (proof e)))%nat →
             mkEntry j (proof e) ∈ pool
}.

(** The proofs of the pool that hold an output of the list [stakes], one for
    each such output, in the order of the list. *)
Definition colliding (stakes : list COutPoint) (pool : ProofPool) : list ProofRef :=
  omap (λ s, getProof_outpoint s pool) stakes.

(** The set left by inserting the proofs of [qs], in order, into [cps]. *)
Definition insert_all (compare : ProofRef → ProofRef → bool)
    (cps : ConflictingProofSet) (qs : list ProofRef) : ConflictingProofSet :=
  foldl (λ c q, set_insert compare q c) cps qs.

(** Neither proof is preferred to the other. *)
Definition equivalent (compare : ProofRef → ProofRef → bool) (a b : ProofRef) : Prop :=
  compare a b = false ∧ compare b a = false.

(** The entries that attaching all the stakes of [p] adds when none of them
    collides. *)
Definition entries_of (p : ProofRef) : list ProofPoolEntry :=
  (λ i, mkEntry i p) <$> seq 0 (length (getStakes p)).

(** [p] claims the output [o] in the pool. *)
Definition claims (pool : ProofPool) (p : ProofRef) (o : COutPoint) : Prop :=
  ∃ e, e ∈ pool ∧ proof e = p ∧ getUTXO e = Some o.

(** Modelled from the spec: [ConflictingProofComparator] is defined outside
    the sources. The spec has it a strict total order, ties broken by proof
    identifier: irreflexive, transitive, and leaving no two proofs with
    different identifiers unordered. *)
Record strict_total (compare : ProofRef → ProofRef → bool) : Prop := mkStrictTotal {
  compare_irrefl : ∀ a, compare a a = false;
  compare_trans : ∀ a b c,
    compare a b = true → compare b c = true → compare a c = true;
  compare_total : ∀ a b,
    getId a ≠ getId b → compare a b = true ∨ compare b a = true
}.

(** ** Slots and peers *)

(** C9: for a slot with [start <= stop], exactly one of [contains],
    [precedes] and [follows] holds of every value; without that
    precondition there are 64-bit values for which [precedes] and [follows]
    hold together. *)
Theorem slot_predicates_partition :
  (∀ (s : Slot) (x : Z), (start s <= stop s)%Z →
     (contains s x = true ∧ precedes s x = false ∧ follows s x = false)
     ∨ (contains s x = false ∧ precedes s x = true ∧ follows s x = false)
     ∨ (contains s x = false ∧ precedes s x = false ∧ follows s x = true))
  ∧ (∃ (s : Slot) (x : Z),
       uint64 (start s) ∧ uint64 (stop s) ∧ uint64 x ∧
       precedes s x = true ∧ follows s x = true).
Proof.
  split.
  - intros [a b] x Hle. unfold contains, precedes, follows. simpl in *.
    rewrite Z.geb_leb, Z.gtb_ltb.
    destruct (Z.leb_spec a x), (Z.ltb_spec x b), (Z.leb_spec b x),
      (Z.ltb_spec x a); simpl; try lia; auto.
  - exists (mkSlot 5 2), 3%Z. unfold uint64. simpl. repeat split; lia.
Qed.

Lemma slot_predicates_partition_witness :
  (start (mkSlot 10 30) <= stop (mkSlot 10 30))%Z
  ∧ contains (mkSlot 10 30) 15 = true
  ∧ precedes (mkSlot 10 30) 15 = false
  ∧ follows (mkSlot 10 30) 15 = false.
Proof.
  split; [simpl; lia|].
  destruct (proj1 slot_predicates_partition (mkSlot 10 30) 15%Z) as [H|[H|H]];
    [simpl; lia|exact H|exfalso|exfalso];
    destruct H as [H _]; vm_compute in H; discriminate H.
Defined.

(** C8: whatever [rescorePeer] does, [removePeer(i)] leaves the peer manager
    that [rescorePeer(i, 0)] leaves: same slots, same slot count, same
    fragmentation. *)
Theorem removePeer_is_rescorePeer_zero :
  ∀ (rescorePeer : nat → Z → PeerManager → PeerManager)
    (i : nat) (pm : PeerManager),
    removePeer rescorePeer i pm = rescorePeer i 0%Z pm
    ∧ slots (removePeer rescorePeer i pm) = slots (rescorePeer i 0%Z pm)
    ∧ getSlotCount (removePeer rescorePeer i pm)
      = getSlotCount (rescorePeer i 0%Z pm)
    ∧ getFragmentation (removePeer rescorePeer i pm)
      = getFragmentation (rescorePeer i 0%Z pm).
Proof. intros rescorePeer i pm. unfold removePeer. repeat split. Qed.

(** ** Rescan *)

Lemma rescan_pool registerProof pm pool :
  (rescan registerProof pm pool).2 = [].
Proof. reflexivity. Qed.

(** C6: a rescan leaves the pool empty, so a second rescan right after it
    registers nothing and leaves the peer manager as the first one left
    it. *)
Theorem rescan_twice :
  ∀ (registerProof : ProofRef → PeerManager → PeerManager)
    (pm : PeerManager) (pool : ProofPool),
    let once := rescan registerProof pm pool in
    rescan registerProof once.1 once.2 = once.
Proof. intros registerProof pm pool. reflexivity. Qed.

(** ** Searching the pool *)

Lemma find_utxo_None o pool : find_utxo o pool = None ↔ Some o ∉ keys pool.
Proof.
  unfold find_utxo, keys. rewrite list_find_None, Forall_forall.
  rewrite list_elem_of_fmap. split.
  - intros H [e [He Hin]]. by apply (H e).
  - intros H e Hin He. apply H. by exists e.
Qed.

Lemma find_utxo_Some_split o pool it e :
  find_utxo o pool = Some (it, e) →
  ∃ l1 l2, pool = l1 ++ e :: l2 ∧ length l1 = it ∧ getUTXO e = Some o
           ∧ Some o ∉ keys l1.
Proof.
  unfold find_utxo. rewrite list_find_Some. intros (Hit & He & Hbefore).
  exists (take it pool), (drop (S it) pool). split_and!.
  - by rewrite take_drop_middle.
  - apply length_take_le. apply lookup_lt_Some in Hit. lia.
  - done.
  - unfold keys. rewrite list_elem_of_fmap. intros (e' & He' & Hin).
    apply list_elem_of_lookup in Hin as [j Hj].
    apply lookup_take_Some in Hj as [Hj Hlt]. by apply (Hbefore j e').
Qed.

Lemma find_utxo_elem_of o pool it e :
  find_utxo o pool = Some (it, e) → e ∈ pool ∧ getUTXO e = Some o.
Proof.
  intros (l1 & l2 & -> & _ & He & _)%find_utxo_Some_split.
  split; [|done]. rewrite elem_of_app, elem_of_cons. auto.
Qed.

Lemma find_utxo_is_Some o pool :
  Some o ∈ keys pool → ∃ it e, find_utxo o pool = Some (it, e).
Proof.
  intros Hin. destruct (find_utxo o pool) as [[it e]|] eqn:Hf; [eauto|].
  by apply find_utxo_None in Hf.
Qed.

Lemma unique_utxo_inj pool e1 e2 :
  unique_utxo pool → e1 ∈ pool → e2 ∈ pool → getUTXO e1 = getUTXO e2 → e1 = e2.
Proof.
  unfold unique_utxo, keys. induction pool as [|e pool IH]; intros Hnd H1 H2 Heq.
  - by apply elem_of_nil in H1.
  - rewrite fmap_cons in Hnd. apply NoDup_cons in Hnd as [Hnotin Hnd].
    apply elem_of_cons in H1 as [->|H1], H2 as [->|H2]; auto.
    + exfalso. apply Hnotin. rewrite Heq. by apply list_elem_of_fmap_2.
    + exfalso. apply Hnotin. rewrite <- Heq. by apply list_elem_of_fmap_2.
Qed.

Lemma find_utxo_unique o pool e :
  unique_utxo pool → e ∈ pool → getUTXO e = Some o →
  ∃ it, find_utxo o pool = Some (it, e).
Proof.
  intros Hnd Hin He.
  destruct (find_utxo_is_Some o pool) as (it & e' & Hf).
  { rewrite <- He. by apply list_elem_of_fmap_2. }
  exists it. rewrite Hf. do 2 f_equal.
  apply find_utxo_elem_of in Hf as [Hin' He'].
  apply (unique_utxo_inj pool); congruence.
Qed.

Lemma find_utxo_app_fresh o pool e :
  getUTXO e ≠ Some o → find_utxo o (pool ++ [e]) = find_utxo o pool.
Proof.
  intros Hne. unfold find_utxo.
  destruct (list_find _ pool) as [[it e']|] eqn:Hf.
  - by apply list_find_app_l.
  - rewrite list_find_app_r by done. simpl.
    destruct (decide (getUTXO e = Some o)); done.
Qed.

Lemma find_proofid_None id pool :
  find_proofid id pool = None ↔ ∀ e, e ∈ pool → entryId e ≠ id.
Proof. unfold find_proofid. by rewrite list_find_None, Forall_forall. Qed.

(** ** The set of conflicting proofs *)

Section ConflictingSet.
Variable compare : ProofRef → ProofRef → bool.

Lemma set_insert_not_nil x s : set_insert compare x s ≠ [].
Proof. destruct s as [|y s]; simpl; [done|]. by repeat case_match. Qed.

Lemma set_insert_elem_of x s y :
  y ∈ set_insert compare x s → y = x ∨ y ∈ s.
Proof.
  induction s as [|z s IH]; simpl.
  - rewrite list_elem_of_singleton. auto.
  - destruct (compare x z); [|destruct (compare z x)];
      rewrite !elem_of_cons; intuition.
Qed.

Lemma set_insert_mono x s y : y ∈ s → y ∈ set_insert compare x s.
Proof.
  induction s as [|z s IH]; simpl; [by rewrite elem_of_nil|].
  destruct (compare x z); [|destruct (compare z x)];
    rewrite !elem_of_cons; intuition.
Qed.

Lemma set_insert_represented x s :
  x ∈ set_insert compare x s ∨ ∃ y, y ∈ s ∧ equivalent compare x y.
Proof.
  induction s as [|z s IH]; simpl.
  - left. by apply list_elem_of_singleton.
  - destruct (compare x z) eqn:Hxz; [left; apply list_elem_of_here|].
    destruct (compare z x) eqn:Hzx.
    + destruct IH as [IH|(y & Hy & Heq)].
      * left. by apply list_elem_of_further.
      * right. exists y. split; [by apply list_elem_of_further|done].
    + right. exists z. split; [apply list_elem_of_here|done].
Qed.

Lemma set_insert_sorted x s :
  strict_total compare →
  StronglySorted (λ a b, compare a b = true) s →
  StronglySorted (λ a b, compare a b = true) (set_insert compare x s).
Proof.
  intros Hc. induction s as [|z s IH]; simpl; intros Hs.
  - repeat constructor.
  - apply StronglySorted_cons in Hs as [Hz Hs].
    destruct (compare x z) eqn:Hxz.
    + apply StronglySorted_cons. split.
      * constructor; [done|]. eapply Forall_impl; [exact Hz|].
        intros b Hb. simpl in Hb. by eapply compare_trans.
      * by apply StronglySorted_cons.
    + destruct (compare z x) eqn:Hzx.
      * apply StronglySorted_cons. split; [|by apply IH].
        apply Forall_forall. intros b [->|Hb]%set_insert_elem_of; [done|].
        by eapply Forall_forall in Hz.
      * by apply StronglySorted_cons.
Qed.

Lemma insert_all_elem_of cps qs y :
  y ∈ insert_all compare cps qs → y ∈ cps ∨ y ∈ qs.
Proof.
  revert cps. induction qs as [|q qs IH]; intros cps; simpl; [auto|].
  intros [[->|H]%set_insert_elem_of|H]%IH; rewrite elem_of_cons; auto.
Qed.

Lemma insert_all_mono cps qs y : y ∈ cps → y ∈ insert_all compare cps qs.
Proof.
  revert cps. induction qs as [|q qs IH]; intros cps Hy; simpl; [done|].
  apply IH. by apply set_insert_mono.
Qed.

Lemma insert_all_represented cps qs q :
  q ∈ qs →
  q ∈ insert_all compare cps qs
  ∨ ∃ y, y ∈ insert_all compare cps qs ∧ equivalent compare q y.
Proof.
  revert cps. induction qs as [|q' qs IH]; intros cps; simpl.
  - by rewrite elem_of_nil.
  - intros [->|Hq]%elem_of_cons; [|by apply IH].
    destruct (set_insert_represented q' cps) as [H|(y & Hy & Heq)].
    + left. by apply insert_all_mono.
    + right. exists y. split; [|done].
      apply insert_all_mono. by apply set_insert_mono.
Qed.

Lemma insert_all_sorted cps qs :
  strict_total compare →
  StronglySorted (λ a b, compare a b = true) cps →
  StronglySorted (λ a b, compare a b = true) (insert_all compare cps qs).
Proof.
  intros Hc. revert cps. induction qs as [|q qs IH]; intros cps Hs; simpl.
  - done.
  - apply IH. by apply set_insert_sorted.
Qed.

Lemma insert_all_nil cps qs :
  insert_all compare cps qs = [] → cps = [] ∧ qs = [].
Proof.
  revert cps. induction qs as [|q qs IH]; intros cps; simpl; [done|].
  intros [H _]%IH. by apply set_insert_not_nil in H.
Qed.

Lemma sorted_NoDup (s : ConflictingProofSet) :
  strict_total compare →
  StronglySorted (λ a b, compare a b = true) s → NoDup s.
Proof.
  intros Hc. induction 1 as [|a l Hs IH Ha]; [constructor|].
  apply NoDup_cons. split; [|done].
  intros Hin. eapply Forall_forall in Ha; [|exact Hin].
  simpl in Ha. by rewrite (compare_irrefl _ Hc) in Ha.
Qed.

Lemma sorted_head_best (best : ProofRef) s q :
  StronglySorted (λ a b, compare a b = true) (best :: s) →
  q ∈ best :: s → q = best ∨ compare best q = true.
Proof.
  intros [Hb _]%StronglySorted_cons [->|Hq]%elem_of_cons; [auto|].
  right. by eapply Forall_forall in Hb.
Qed.

End ConflictingSet.

(** ** Attaching the stakes of a proof *)

Lemma drop_cons_inv {A} (l : list A) k x rest :
  drop k l = x :: rest → l !! k = Some x ∧ drop (S k) l = rest.
Proof.
  intros H. split.
  - rewrite <- (Nat.add_0_r k), <- lookup_drop. by rewrite H.
  - replace (S k) with (k + 1)%nat by lia. rewrite <- drop_drop. by rewrite H.
Qed.

Lemma getProof_outpoint_app_fresh o pool e :
  getUTXO e ≠ Some o → getProof_outpoint o (pool ++ [e]) = getProof_outpoint o pool.
Proof. intros H. unfold getProof_outpoint. by rewrite find_utxo_app_fresh. Qed.

Lemma colliding_cons s stakes pool :
  colliding (s :: stakes) pool
  = match getProof_outpoint s pool with
    | Some q => q :: colliding stakes pool
    | None => colliding stakes pool
    end.
Proof. reflexivity. Qed.

Lemma colliding_app_fresh stakes pool e :
  (∀ s, s ∈ stakes → getUTXO e ≠ Some s) →
  colliding stakes (pool ++ [e]) = colliding stakes pool.
Proof.
  induction stakes as [|s stakes IH]; intros H; [done|].
  rewrite !colliding_cons.
  rewrite getProof_outpoint_app_fresh by (apply H; apply list_elem_of_here).
  rewrite IH; [done|]. intros s' Hs'. apply H. by apply list_elem_of_further.
Qed.

Lemma keys_app pool1 pool2 : keys (pool1 ++ pool2) = keys pool1 ++ keys pool2.
Proof. apply fmap_app. Qed.

Section Attach.
Variable compare : ProofRef → ProofRef → bool.

(** The loop returns; it appends entries of [p] on outputs that were free,
    all different, and leaves every stake it visited in the by-output
    index. *)
Lemma attachStakes_general p rest : ∀ k pool cps,
  drop k (getStakes p) = rest →
  ∃ added cps',
    attachStakes compare p (seq k (length rest)) pool cps
    = Ok (pool ++ added, cps')
    ∧ (∀ e, e ∈ added → proof e = p ∧ ∃ s, s ∈ rest ∧ getUTXO e = Some s)
    ∧ NoDup (keys added)
    ∧ (∀ e, e ∈ added → getUTXO e ∉ keys pool)
    ∧ (∀ s, s ∈ rest → Some s ∈ keys (pool ++ added))
    ∧ (cps ≠ [] → cps' ≠ [])
    ∧ (cps' = [] → added = (λ i, mkEntry i p) <$> seq k (length rest)).
Proof.
  induction rest as [|s rest IH]; intros k pool cps Hdrop.
  - exists [], cps. simpl. rewrite app_nil_r. split_and!; try done.
    + intros e He. by apply elem_of_nil in He.
    + constructor.
    + intros e He. by apply elem_of_nil in He.
    + intros s Hs. by apply elem_of_nil in Hs.
  - apply drop_cons_inv in Hdrop as [Hk Hdrop].
    simpl. unfold emplace. rewrite Hk. simpl.
    destruct (find_utxo s pool) as [[it e]|] eqn:Hf; simpl.
    + destruct (IH (S k) pool (set_insert compare (proof e) cps) Hdrop)
        as (added & cps' & Hrun & Hown & Hnd & Hfree & Hall & Hne & Hnil).
      exists added, cps'. split_and!; try done.
      * intros e' He'. destruct (Hown e' He') as (Hp & s' & Hs' & Hkey).
        split; [done|]. exists s'. split; [by apply list_elem_of_further|done].
      * intros s' [->|Hs']%elem_of_cons; [|by apply Hall].
        rewrite keys_app, elem_of_app. left.
        apply find_utxo_elem_of in Hf as [Hin <-].
        by apply list_elem_of_fmap_2.
      * intros _. apply Hne, set_insert_not_nil.
      * intros Hcps'. exfalso. by apply (Hne (set_insert_not_nil _ _ _)).
    + destruct (IH (S k) (pool ++ [mkEntry k p]) cps Hdrop)
        as (added & cps' & Hrun & Hown & Hnd & Hfree & Hall & Hne & Hnil).
      exists (mkEntry k p :: added), cps'.
      assert (Hnew : getUTXO (mkEntry k p) = Some s) by done.
      split_and!.
      * by rewrite (cons_middle _ pool added), app_assoc.
      * intros e' [->|He']%elem_of_cons.
        -- split; [done|]. exists s. split; [apply list_elem_of_here|done].
        -- destruct (Hown e' He') as (Hp & s' & Hs' & Hkey).
           split; [done|]. exists s'.
           split; [by apply list_elem_of_further|done].
      * unfold keys. rewrite fmap_cons. apply NoDup_cons. split; [|done].
        intros (e' & Heq & He')%list_elem_of_fmap.
        apply (Hfree e' He'). rewrite keys_app, elem_of_app. right.
        rewrite <- Heq. apply list_elem_of_fmap_2, list_elem_of_here.
      * intros e' [->|He']%elem_of_cons.
        -- rewrite Hnew. by apply find_utxo_None.
        -- intros Hin. apply (Hfree e' He').
           rewrite keys_app, elem_of_app. by left.
      * intros s' Hs'. rewrite (cons_middle _ pool added), app_assoc.
        apply elem_of_cons in Hs' as [->|Hs']; [|by apply Hall].
        rewrite keys_app, elem_of_app. left.
        rewrite keys_app, elem_of_app. right.
        rewrite <- Hnew. apply list_elem_of_fmap_2, list_elem_of_here.
      * done.
      * intros Hcps'. by rewrite (Hnil Hcps').
Qed.

(** When the stakes that are free in the pool are all different, the
    conflicts recorded are the holders of the stakes that are not free. *)
Lemma attachStakes_conflicts p rest : ∀ k pool cps,
  drop k (getStakes p) = rest →
  NoDup (filter (λ s, Some s ∉ keys pool) rest) →
  ∃ added,
    attachStakes compare p (seq k (length rest)) pool cps
    = Ok (pool ++ added, insert_all compare cps (colliding rest pool)).
Proof.
  induction rest as [|s rest IH]; intros k pool cps Hdrop Hnd.
  - exists []. simpl. by rewrite app_nil_r.
  - apply drop_cons_inv in Hdrop as [Hk Hdrop].
    rewrite colliding_cons. unfold getProof_outpoint at 1.
    cbn [length seq attachStakes]. unfold emplace. rewrite Hk.
    destruct (find_utxo s pool) as [[it e]|] eqn:Hf; cbn [mbind result_bind fmap option_fmap option_map].
    + apply IH; [done|].
      rewrite filter_cons_False in Hnd; [done|].
      intros Hfree. apply find_utxo_None in Hfree. congruence.
    + apply find_utxo_None in Hf.
      rewrite filter_cons_True in Hnd by done.
      apply NoDup_cons in Hnd as [Hs Hnd].
      assert (Hnotin : s ∉ rest).
      { intros Hin. apply Hs. by apply list_elem_of_filter. }
      assert (Hnew : ∀ s', s' ∈ rest → getUTXO (mkEntry k p) ≠ Some s').
      { intros s' Hs' Heq. assert (s = s') by (unfold getUTXO in Heq; simpl in Heq; congruence).
        by subst. }
      destruct (IH (S k) (pool ++ [mkEntry k p]) cps Hdrop) as [added Hrun].
      { erewrite <- list_filter_filter_l; [by apply NoDup_filter|].
        intros s' Hfree Hin. apply Hfree. rewrite keys_app, elem_of_app. by left. }
      exists (mkEntry k p :: added).
      rewrite Hrun, (colliding_app_fresh _ _ _ Hnew).
      by rewrite (cons_middle _ pool added), app_assoc.
Qed.

End Attach.

(** ** Cleaning up after a conflict *)

Lemma unique_utxo_sublist pool1 pool2 :
  pool1 `sublist_of` pool2 → unique_utxo pool2 → unique_utxo pool1.
Proof.
  intros Hsub Hnd. unfold unique_utxo, keys in *.
  eapply sublist_NoDup; [exact Hnd|]. by apply fmap_sublist.
Qed.

Lemma keys_sublist pool1 pool2 k :
  pool1 `sublist_of` pool2 → k ∈ keys pool1 → k ∈ keys pool2.
Proof.
  intros Hsub Hk. eapply elem_of_sublist; [exact Hk|]. by apply fmap_sublist.
Qed.

Lemma filter_all {A} (P : A → Prop) `{∀ x, Decision (P x)} (l : list A) :
  (∀ x, x ∈ l → P x) → filter P l = l.
Proof.
  induction l as [|x l IH]; intros Hall; [done|].
  rewrite filter_cons_True by (apply Hall, list_elem_of_here).
  rewrite IH; [done|]. intros y Hy. by apply Hall, list_elem_of_further.
Qed.

Lemma filter_none {A} (P : A → Prop) `{∀ x, Decision (P x)} (l : list A) :
  (∀ x, x ∈ l → ¬ P x) → filter P l = [].
Proof.
  induction l as [|x l IH]; intros Hall; [done|].
  rewrite filter_cons_False by (apply Hall, list_elem_of_here).
  apply IH. intros y Hy. by apply Hall, list_elem_of_further.
Qed.

(** What one round of the clean-up loop has at hand once the stake is
    found: the pool splits around the entry found, which is the only one
    with that key when keys are unique. *)
Lemma find_utxo_delete o pool it e :
  find_utxo o pool = Some (it, e) →
  ∃ l1 l2, pool = l1 ++ e :: l2 ∧ delete it pool = l1 ++ l2
           ∧ getUTXO e = Some o
           ∧ (unique_utxo pool → Some o ∉ keys (l1 ++ l2)).
Proof.
  intros (l1 & l2 & -> & <- & He & Hl1)%find_utxo_Some_split.
  exists l1, l2. split_and!; [done|by rewrite delete_middle|done|].
  unfold unique_utxo. rewrite !keys_app. unfold keys at 2.
  rewrite fmap_cons, He.
  intros (_ & Hdisj & [Hl2 _]%NoDup_cons)%NoDup_app.
  rewrite elem_of_app. intros [Hin|Hin]; [|done].
  apply (Hdisj _ Hin), list_elem_of_here.
Qed.

Lemma cleanup_failure proofid stakes : ∀ pool f,
  cleanup proofid stakes pool = Err f → f = AssertionFailed.
Proof.
  induction stakes as [|s stakes IH]; intros pool f; simpl; [done|].
  destruct (find_utxo s pool) as [[it e]|]; [apply IH|congruence].
Qed.

(** The loop returns only when it finds every stake in its turn. *)
Lemma cleanup_found proofid stakes : ∀ pool pool',
  cleanup proofid stakes pool = Ok pool' →
  ∀ s, s ∈ stakes → Some s ∈ keys pool.
Proof.
  induction stakes as [|s stakes IH]; intros pool pool' Hrun s' Hs'.
  - by apply elem_of_nil in Hs'.
  - simpl in Hrun.
    destruct (find_utxo s pool) as [[it e]|] eqn:Hf; [|done].
    apply elem_of_cons in Hs' as [->|Hs'].
    + apply find_utxo_elem_of in Hf as [Hin <-]. by apply list_elem_of_fmap_2.
    + eapply keys_sublist; [|by eapply IH].
      destruct (decide _); [apply sublist_delete|done].
Qed.

(** When the loop returns, what it leaves is the pool without the entries of
    the proof, provided that keys are unique and that every entry of the
    proof sits on one of the stakes visited. *)
Lemma cleanup_restore proofid stakes : ∀ pool pool',
  cleanup proofid stakes pool = Ok pool' →
  unique_utxo pool →
  (∀ e, e ∈ pool → entryId e = proofid →
        ∃ s, s ∈ stakes ∧ getUTXO e = Some s) →
  pool' = filter (λ e, entryId e ≠ proofid) pool.
Proof.
  induction stakes as [|s stakes IH]; intros pool pool' Hrun Hnd Hown.
  - simpl in Hrun. injection Hrun as <-. symmetry. apply filter_all.
    intros e He Hid. destruct (Hown e He Hid) as (s & Hs & _).
    by apply elem_of_nil in Hs.
  - simpl in Hrun.
    destruct (find_utxo s pool) as [[it e]|] eqn:Hf; [|done].
    pose proof (find_utxo_elem_of _ _ _ _ Hf) as [Hin He].
    destruct (find_utxo_delete _ _ _ _ Hf) as (l1 & l2 & Hpool & Hdel & _ & Hgone).
    specialize (Hgone Hnd).
    assert (Hother : ∀ e', e' ∈ pool → getUTXO e' = Some s → e' = e).
    { intros e' Hin' He'. apply (unique_utxo_inj pool); congruence. }
    destruct (decide (entryId e = proofid)) as [Hid|Hid].
    + rewrite Hdel in Hrun. apply IH in Hrun.
      * rewrite Hrun, Hpool, !filter_app, filter_cons_False; [done|].
        intros Hne. by apply Hne.
      * eapply unique_utxo_sublist; [|exact Hnd].
        rewrite <- Hdel. apply sublist_delete.
      * intros e' He' Hid'.
        assert (Hin' : e' ∈ pool).
        { rewrite Hpool. revert He'. rewrite !elem_of_app, elem_of_cons. tauto. }
        destruct (Hown e' Hin' Hid') as (s' & [->|Hs']%elem_of_cons & Hkey);
          [|by exists s'].
        exfalso. apply Hgone. rewrite <- Hkey. by apply list_elem_of_fmap_2.
    + apply IH in Hrun; [done|done|].
      intros e' He' Hid'.
      destruct (Hown e' He' Hid') as (s' & [->|Hs']%elem_of_cons & Hkey);
        [|by exists s'].
      exfalso. apply Hid. by rewrite <- (Hother e' He' Hkey).
Qed.

(** When the loop returns, the stakes whose holder is an entry of the proof
    are all different: the second visit of such a stake would not find
    it. *)
Lemma cleanup_distinct proofid (F : COutPoint → Prop) `{∀ s, Decision (F s)}
    stakes : ∀ pool pool',
  cleanup proofid stakes pool = Ok pool' →
  unique_utxo pool →
  (∀ e s, e ∈ pool → getUTXO e = Some s → F s → entryId e = proofid) →
  NoDup (filter F stakes).
Proof.
  induction stakes as [|s stakes IH]; intros pool pool' Hrun Hnd Hown.
  - constructor.
  - simpl in Hrun.
    destruct (find_utxo s pool) as [[it e]|] eqn:Hf; [|done].
    pose proof (find_utxo_elem_of _ _ _ _ Hf) as [Hin He].
    destruct (find_utxo_delete _ _ _ _ Hf) as (l1 & l2 & Hpool & Hdel & _ & Hgone).
    specialize (Hgone Hnd).
    assert (Htail : NoDup (filter F stakes)).
    { eapply IH; [exact Hrun| |].
      - eapply unique_utxo_sublist; [|exact Hnd].
        destruct (decide _); [apply sublist_delete|done].
      - intros e' s' He'. apply Hown.
        eapply elem_of_sublist; [exact He'|].
        destruct (decide _); [apply sublist_delete|done]. }
    destruct (decide (F s)) as [HF|HF].
    + rewrite filter_cons_True by done. apply NoDup_cons. split; [|done].
      intros [_ Hs]%list_elem_of_filter.
      rewrite decide_True in Hrun by (by eapply Hown).
      rewrite Hdel in Hrun. apply Hgone. by eapply cleanup_found.
    + by rewrite filter_cons_False.
Qed.

(** With unique keys, stakes that are all in the by-output index, and no
    stake held by an entry of the proof visited twice, the loop returns. *)
Lemma cleanup_returns_unique proofid (F : COutPoint → Prop)
    `{∀ s, Decision (F s)} stakes : ∀ pool,
  unique_utxo pool →
  NoDup (filter F stakes) →
  (∀ s, s ∈ stakes → Some s ∈ keys pool) →
  (∀ e s, e ∈ pool → getUTXO e = Some s → entryId e = proofid → F s) →
  ∃ pool', cleanup proofid stakes pool = Ok pool'.
Proof.
  induction stakes as [|s stakes IH]; intros pool Hnd Hdist Hall Hown;
    [by eexists|].
  simpl.
  destruct (find_utxo_is_Some s pool) as (it & e & Hf).
  { apply Hall, list_elem_of_here. }
  rewrite Hf.
  pose proof (find_utxo_elem_of _ _ _ _ Hf) as [Hin He].
  assert (Htail : NoDup (filter F stakes)).
  { destruct (decide (F s)).
    - rewrite filter_cons_True in Hdist by done. by apply NoDup_cons in Hdist as [_ ?].
    - by rewrite filter_cons_False in Hdist. }
  apply IH; [|done| |].
  - eapply unique_utxo_sublist; [|exact Hnd].
    destruct (decide _); [apply sublist_delete|done].
  - intros s' Hs'.
    assert (Hin' : Some s' ∈ keys pool) by (by apply Hall, list_elem_of_further).
    destruct (decide (entryId e = proofid)) as [Hid|Hid]; [|done].
    assert (s' ≠ s).
    { intros ->. assert (HF : F s) by (by eapply Hown).
      rewrite filter_cons_True in Hdist by done.
      apply NoDup_cons in Hdist as [Hnotin _]. apply Hnotin.
      by apply list_elem_of_filter. }
    destruct (find_utxo_delete _ _ _ _ Hf) as (l1 & l2 & Hpool & -> & _ & _).
    revert Hin'. rewrite Hpool, !keys_app. unfold keys at 2.
    rewrite fmap_cons, !elem_of_app, elem_of_cons, He.
    intros [?|[?|?]]; [auto|congruence|auto].
  - intros e' s' He'. apply Hown.
    eapply elem_of_sublist; [exact He'|].
    destruct (decide _); [apply sublist_delete|done].
Qed.

(** ** [addProofIfNoConflict], case by case *)

Lemma keys_entries_of p : keys (entries_of p) = Some <$> getStakes p.
Proof.
  unfold keys, entries_of. apply list_eq. intros i.
  rewrite !list_lookup_fmap.
  destruct (decide (i < length (getStakes p))%nat) as [Hlt|Hge].
  - rewrite lookup_seq_lt by done. simpl. unfold getUTXO. simpl.
    destruct (lookup_lt_is_Some_2 _ _ Hlt) as [s Hs]. by rewrite Hs.
  - rewrite lookup_seq_ge by lia. simpl.
    by rewrite lookup_ge_None_2 by lia.
Qed.

Lemma entries_of_elem_of p e :
  e ∈ entries_of p ↔ proof e = p ∧ (utxoIndex e < length (getStakes p))%nat.
Proof.
  unfold entries_of. rewrite list_elem_of_fmap. split.
  - intros (i & -> & Hi). apply elem_of_seq in Hi. simpl. split; [done|lia].
  - intros [Hp Hlt]. exists (utxoIndex e). split.
    + destruct e; simpl in *; by subst.
    + apply elem_of_seq. lia.
Qed.

Lemma colliding_nil stakes pool :
  colliding stakes pool = [] ↔ ∀ s, s ∈ stakes → Some s ∉ keys pool.
Proof.
  induction stakes as [|s stakes IH]; [by split; [intros _ s Hs; apply elem_of_nil in Hs|]|].
  rewrite colliding_cons. unfold getProof_outpoint at 1.
  destruct (find_utxo s pool) as [[it e]|] eqn:Hf; simpl.
  - split; [done|]. intros Hall. exfalso.
    apply (Hall s (list_elem_of_here _ _)).
    apply find_utxo_elem_of in Hf as [Hin <-]. by apply list_elem_of_fmap_2.
  - apply find_utxo_None in Hf. rewrite IH. split.
    + intros Hall s' [->|Hs']%elem_of_cons; auto.
    + intros Hall s' Hs'. by apply Hall, list_elem_of_further.
Qed.

Lemma colliding_elem_of stakes pool q :
  unique_utxo pool →
  q ∈ colliding stakes pool ↔ ∃ o, o ∈ stakes ∧ claims pool q o.
Proof.
  intros Hnd. unfold colliding, claims. rewrite list_elem_of_omap.
  unfold getProof_outpoint. split.
  - intros (o & Ho & Hq). exists o. split; [done|].
    destruct (find_utxo o pool) as [[it e]|] eqn:Hf; [|done].
    simpl in Hq. injection Hq as <-.
    apply find_utxo_elem_of in Hf as [Hin He]. by exists e.
  - intros (o & Ho & e & Hin & <- & He). exists o. split; [done|].
    destruct (find_utxo_unique o pool e Hnd Hin He) as [it ->]. done.
Qed.

Section AddProofIfNoConflict.
Variable compare : ProofRef → ProofRef → bool.

Lemma addProofIfNoConflict_duplicated p cps0 pool :
  is_Some (find_proofid (getId p) pool) →
  addProofIfNoConflict compare p cps0 pool = Ok (DUPLICATED, [], pool).
Proof. intros [it Hf]. unfold addProofIfNoConflict. by rewrite Hf. Qed.

(** The state after the first loop of [addProofIfNoConflict]. *)
Lemma attachStakes_all p pool :
  unique_utxo pool → find_proofid (getId p) pool = None →
  ∃ added cps',
    attachStakes compare p (seq 0 (length (getStakes p))) pool []
    = Ok (pool ++ added, cps')
    ∧ unique_utxo (pool ++ added)
    ∧ (∀ s, s ∈ getStakes p → Some s ∈ keys (pool ++ added))
    ∧ (∀ e s, e ∈ pool ++ added → getUTXO e = Some s →
              (entryId e = getId p ↔ Some s ∉ keys pool))
    ∧ (∀ e, e ∈ pool ++ added → entryId e = getId p →
            ∃ s, s ∈ getStakes p ∧ getUTXO e = Some s)
    ∧ filter (λ e, entryId e ≠ getId p) (pool ++ added) = pool
    ∧ (cps' = [] → added = entries_of p).
Proof.
  intros Hnd Hid.
  destruct (attachStakes_general compare p (getStakes p) 0 pool [] eq_refl)
    as (added & cps' & Hrun & Hown & Hnda & Hfree & Hall & _ & Hnil).
  pose proof (proj1 (find_proofid_None _ _) Hid) as Hother.
  exists added, cps'. split_and!; try done.
  - unfold unique_utxo. rewrite keys_app. apply NoDup_app. split_and!; [done| |done].
    intros k Hk (e & -> & He)%list_elem_of_fmap. by apply (Hfree e He).
  - intros e s [He|He]%elem_of_app Hkey.
    + split; [intros Heq; by apply Hother in He|].
      intros Hfr. exfalso. apply Hfr. rewrite <- Hkey. by apply list_elem_of_fmap_2.
    + split; [|intros _; unfold entryId; by rewrite (proj1 (Hown e He))].
      intros _. rewrite <- Hkey. by apply Hfree.
  - intros e [He|He]%elem_of_app Heq; [by apply Hother in He|].
    by apply Hown.
  - rewrite filter_app, filter_all by done. rewrite filter_none; [by rewrite app_nil_r|].
    intros e He Hne. apply Hne. unfold entryId. by rewrite (proj1 (Hown e He)).
Qed.

(** A stake listed twice and free in the pool: the clean-up loop does not
    find it the second time, and the assertion of line 38 fails. *)
Lemma addProofIfNoConflict_self_collision p cps0 pool :
  unique_utxo pool → find_proofid (getId p) pool = None →
  ¬ NoDup (filter (λ s, Some s ∉ keys pool) (getStakes p)) →
  addProofIfNoConflict compare p cps0 pool = Err AssertionFailed.
Proof.
  intros Hnd Hid Hdup. unfold addProofIfNoConflict. rewrite Hid.
  destruct (attachStakes_all p pool Hnd Hid)
    as (added & cps' & -> & Hnd' & Hall & Hown & Hstk & Hfilter & Hnil).
  simpl. destruct cps' as [|c cps'].
  - exfalso. apply Hdup, NoDup_filter.
    eapply (NoDup_fmap_1 Some). rewrite <- keys_entries_of.
    rewrite <- (Hnil eq_refl). unfold unique_utxo in Hnd'.
    rewrite keys_app in Hnd'. by apply NoDup_app in Hnd' as (_ & _ & ?).
  - simpl. destruct (cleanup _ _ _) as [pool'|f] eqn:Hclean; simpl.
    + exfalso. apply Hdup.
      eapply cleanup_distinct; [exact Hclean|exact Hnd'|].
      intros e s He Hkey Hfree. by apply (Hown e s He Hkey).
    + by rewrite (cleanup_failure _ _ _ _ Hclean).
Qed.

(** The stakes that are free are all different and some stake is held: the
    proof is rejected, the pool is as before, and the conflicts are the
    holders. *)
Lemma addProofIfNoConflict_rejected p cps0 pool :
  unique_utxo pool → find_proofid (getId p) pool = None →
  NoDup (filter (λ s, Some s ∉ keys pool) (getStakes p)) →
  colliding (getStakes p) pool ≠ [] →
  addProofIfNoConflict compare p cps0 pool
  = Ok (REJECTED, insert_all compare [] (colliding (getStakes p) pool), pool).
Proof.
  intros Hnd Hid Hdist Hcoll. unfold addProofIfNoConflict. rewrite Hid.
  destruct (attachStakes_all p pool Hnd Hid)
    as (added & cps' & Hrun & Hnd' & Hall & Hown & Hstk & Hfilter & Hnil).
  destruct (attachStakes_conflicts compare p (getStakes p) 0 pool [] eq_refl Hdist)
    as [added' Hrun'].
  rewrite Hrun' in Hrun. injection Hrun as Hadded Hcps.
  apply app_inv_head in Hadded. subst added' cps'.
  rewrite Hrun'. simpl.
  destruct (insert_all compare [] (colliding (getStakes p) pool)) as [|c cps'] eqn:Hcps.
  { by apply insert_all_nil in Hcps as [_ ?]. }
  simpl.
  destruct (cleanup_returns_unique (getId p) (λ s, Some s ∉ keys pool)
              (getStakes p) (pool ++ added) Hnd' Hdist Hall) as [pool' Hclean].
  { intros e s He Hkey Heq. by apply (Hown e s He Hkey). }
  rewrite Hclean. simpl. do 2 f_equal.
  rewrite (cleanup_restore _ _ _ _ Hclean Hnd' Hstk). exact Hfilter.
Qed.

(** The stakes are all different and all free: the proof is added, with one
    entry for each stake. *)
Lemma addProofIfNoConflict_succeed p cps0 pool :
  unique_utxo pool → find_proofid (getId p) pool = None →
  NoDup (getStakes p) →
  colliding (getStakes p) pool = [] →
  addProofIfNoConflict compare p cps0 pool
  = Ok (SUCCEED, [], pool ++ entries_of p).
Proof.
  intros Hnd Hid Hdist Hcoll. unfold addProofIfNoConflict. rewrite Hid.
  destruct (attachStakes_all p pool Hnd Hid)
    as (added & cps' & Hrun & Hnd' & Hall & Hown & Hstk & Hfilter & Hnil).
  destruct (attachStakes_conflicts compare p (getStakes p) 0 pool [] eq_refl)
    as [added' Hrun']; [by apply NoDup_filter|].
  rewrite Hrun' in Hrun. injection Hrun as Hadded Hcps.
  apply app_inv_head in Hadded. subst added' cps'.
  rewrite Hrun', Hcoll. simpl. rewrite Hcoll in Hnil. simpl in Hnil.
  by rewrite (Hnil eq_refl).
Qed.

(** The three ways in which [addProofIfNoConflict] returns. *)
Lemma addProofIfNoConflict_inv p cps0 pool added cps pool' :
  unique_utxo pool →
  addProofIfNoConflict compare p cps0 pool = Ok (added, cps, pool') →
  (added = DUPLICATED ∧ is_Some (find_proofid (getId p) pool)
   ∧ cps = [] ∧ pool' = pool)
  ∨ (added = REJECTED ∧ find_proofid (getId p) pool = None
     ∧ colliding (getStakes p) pool ≠ []
     ∧ cps = insert_all compare [] (colliding (getStakes p) pool)
     ∧ pool' = pool)
  ∨ (added = SUCCEED ∧ find_proofid (getId p) pool = None
     ∧ NoDup (getStakes p) ∧ colliding (getStakes p) pool = []
     ∧ cps = [] ∧ pool' = pool ++ entries_of p).
Proof.
  intros Hnd Hrun.
  destruct (find_proofid (getId p) pool) as [it|] eqn:Hid.
  { rewrite addProofIfNoConflict_duplicated in Hrun by by eexists.
    injection Hrun as <- <- <-. left. split_and!; by eauto. }
  destruct (decide (NoDup (filter (λ s, Some s ∉ keys pool) (getStakes p))))
    as [Hdist|Hdup].
  2: { by rewrite addProofIfNoConflict_self_collision in Hrun. }
  destruct (decide (colliding (getStakes p) pool = [])) as [Hcoll|Hcoll].
  - assert (Hstakes : NoDup (getStakes p)).
    { rewrite filter_all in Hdist; [done|]. by apply colliding_nil. }
    rewrite addProofIfNoConflict_succeed in Hrun by done.
    injection Hrun as <- <- <-. by right; right.
  - rewrite addProofIfNoConflict_rejected in Hrun by done.
    injection Hrun as <- <- <-. by right; left.
Qed.

End AddProofIfNoConflict.

(** ** What holds of the pool between two public calls *)

Lemma pool_inv_nil : pool_inv [].
Proof.
  split.
  - constructor.
  - intros e He. by apply elem_of_nil in He.
  - intros e1 e2 He. by apply elem_of_nil in He.
  - intros e j He. by apply elem_of_nil in He.
Qed.

(** Erasing whole proofs, chosen by their identifier, keeps the pool
    well formed. *)
Lemma pool_inv_filter (P : ProofPoolEntry → Prop) `{∀ e, Decision (P e)} pool :
  (∀ e1 e2, entryId e1 = entryId e2 → P e1 → P e2) →
  pool_inv pool → pool_inv (filter P pool).
Proof.
  intros HP [Hu Hi Hids Hfull]. split.
  - eapply unique_utxo_sublist; [apply sublist_filter|done].
  - intros e [_ He]%list_elem_of_filter. by apply Hi.
  - intros e1 e2 [_ H1]%list_elem_of_filter [_ H2]%list_elem_of_filter.
    by apply Hids.
  - intros e j [HQ He]%list_elem_of_filter Hj.
    apply list_elem_of_filter. split; [|by apply Hfull].
    by apply (HP e).
Qed.

Lemma removeProof_pool p pool :
  (removeProof p pool).2 = filter (λ e, entryId e ≠ getId p) pool.
Proof. reflexivity. Qed.

Lemma pool_inv_removeProof p pool :
  pool_inv pool → pool_inv (removeProof p pool).2.
Proof.
  intros Hinv. rewrite removeProof_pool.
  apply pool_inv_filter; [|done]. intros e1 e2 Heq. by rewrite Heq.
Qed.

Lemma pool_inv_entries_of p pool :
  pool_inv pool → find_proofid (getId p) pool = None →
  NoDup (getStakes p) → colliding (getStakes p) pool = [] →
  pool_inv (pool ++ entries_of p).
Proof.
  intros [Hu Hi Hids Hfull] Hid Hnd Hcoll.
  pose proof (proj1 (find_proofid_None _ _) Hid) as Hother.
  pose proof (proj1 (colliding_nil _ _) Hcoll) as Hfree.
  split.
  - unfold unique_utxo. rewrite keys_app, keys_entries_of.
    apply NoDup_app. split_and!; [done| |].
    + intros k Hk (s & -> & Hs)%list_elem_of_fmap. by apply (Hfree s).
    + by apply (NoDup_fmap_2 Some).
  - intros e [He|[Hp Hlt]%entries_of_elem_of]%elem_of_app; [by apply Hi|].
    unfold getUTXO. rewrite Hp. by apply lookup_lt_is_Some_2.
  - intros e1 e2 [H1|[H1 _]%entries_of_elem_of]%elem_of_app
      [H2|[H2 _]%entries_of_elem_of]%elem_of_app Heq.
    + by apply Hids.
    + exfalso. apply (Hother e1 H1). unfold entryId in *. by rewrite Heq, H2.
    + exfalso. apply (Hother e2 H2). unfold entryId in *. by rewrite <- Heq, H1.
    + congruence.
  - intros e j [He|[Hp Hlt]%entries_of_elem_of]%elem_of_app Hj;
      apply elem_of_app; [left; by apply Hfull|right].
    apply entries_of_elem_of. simpl. by rewrite Hp in *.
Qed.

Section Invariant.
Variable compare : ProofRef → ProofRef → bool.

Lemma pool_inv_addProofIfNoConflict p cps0 pool added cps pool' :
  pool_inv pool →
  addProofIfNoConflict compare p cps0 pool = Ok (added, cps, pool') →
  pool_inv pool'.
Proof.
  intros Hinv Hrun.
  apply addProofIfNoConflict_inv in Hrun; [|by apply inv_unique].
  destruct Hrun as [(_ & _ & _ & ->)|[(_ & _ & _ & _ & ->)|(_ & ? & ? & ? & _ & ->)]];
    [done|done|by apply pool_inv_entries_of].
Qed.

Lemma remove_conflicting pool (cps : ConflictingProofSet) :
  foldl (λ pool conflictingProof, (removeProof conflictingProof pool).2) pool cps
  = filter (λ e, entryId e ∉ getId <$> cps) pool.
Proof.
  revert pool. induction cps as [|c cps IH]; intros pool; cbn [foldl].
  - symmetry. apply filter_all. intros e _. apply not_elem_of_nil.
  - rewrite IH, removeProof_pool, list_filter_filter, fmap_cons.
    apply list_filter_iff. intros e. rewrite not_elem_of_cons. tauto.
Qed.

Lemma pool_inv_addProofIfPreferred p cps0 pool added cps pool' :
  pool_inv pool →
  addProofIfPreferred compare p cps0 pool = Ok (added, cps, pool') →
  pool_inv pool'.
Proof.
  intros Hinv. unfold addProofIfPreferred.
  destruct (addProofIfNoConflict compare p cps0 pool)
    as [[[added1 cps1] pool1]|f] eqn:Hfirst; [|done].
  apply pool_inv_addProofIfNoConflict in Hfirst; [|done].
  simpl. destruct (not_added added1); [|by intros [= _ _ <-]].
  destruct cps1 as [|best cps1]; [done|].
  destruct (compare p best); [|by intros [= _ _ <-]].
  rewrite remove_conflicting.
  destruct (addProofIfNoConflict compare p [] _)
    as [[[added2 cps2] pool2]|f] eqn:Hretry; [|done].
  simpl. destruct (decide (added2 = SUCCEED)); [|done]. intros [= _ _ <-].
  eapply pool_inv_addProofIfNoConflict; [|exact Hretry].
  apply pool_inv_filter; [|done]. intros e1 e2 Heq. by rewrite Heq.
Qed.

Lemma pool_inv_step c pool pool' :
  pool_inv pool → step compare c pool = Ok pool' → pool_inv pool'.
Proof.
  intros Hinv. destruct c as [p|p|p]; simpl.
  - destruct (addProofIfNoConflict compare p [] pool)
      as [[[added cps] pool1]|f] eqn:Hrun; [|done].
    intros [= <-]. by eapply pool_inv_addProofIfNoConflict.
  - destruct (addProofIfPreferred compare p [] pool)
      as [[[added cps] pool1]|f] eqn:Hrun; [|done].
    intros [= <-]. by eapply pool_inv_addProofIfPreferred.
  - intros [= <-]. by apply pool_inv_removeProof.
Qed.

Lemma pool_inv_run calls : ∀ pool pool',
  pool_inv pool → run compare calls pool = Ok pool' → pool_inv pool'.
Proof.
  induction calls as [|c calls IH]; intros pool pool' Hinv; simpl.
  - by intros [= <-].
  - destruct (step compare c pool) as [pool1|f] eqn:Hstep; [|done].
    simpl. apply IH. by eapply pool_inv_step.
Qed.

Lemma reachable_inv pool : reachable compare pool → pool_inv pool.
Proof. intros [calls Hrun]. eapply pool_inv_run; [apply pool_inv_nil|done]. Qed.

End Invariant.

(** ** The comparator used to run the model *)

Lemma compareByProofId_strict_total : strict_total compareByProofId.
Proof.
  unfold compareByProofId. split.
  - intros a. apply N.ltb_irrefl.
  - intros a b c. rewrite !N.ltb_lt. lia.
  - intros a b Hne. rewrite !N.ltb_lt. lia.
Qed.

Lemma equivalent_same_id compare a b :
  strict_total compare → equivalent compare a b → getId a = getId b.
Proof.
  intros Hc [Hab Hba]. destruct (decide (getId a = getId b)) as [|Hne]; [done|].
  destruct (compare_total _ Hc a b Hne); congruence.
Qed.

(** ** Uniqueness of the by-output index *)

Lemma run_app compare calls1 calls2 pool :
  run compare (calls1 ++ calls2) pool
  = run compare calls1 pool ≫= run compare calls2.
Proof.
  revert pool. induction calls1 as [|c calls1 IH]; intros pool; simpl; [done|].
  destruct (step compare c pool) as [pool1|f]; simpl; [apply IH|done].
Qed.

(** C1: take any history of [addProofIfNoConflict], [addProofIfPreferred]
    and [removeProof] calls from the empty pool, and any point of it between
    two calls, the end included. The pool at that point has no two entries
    on one output: the keys of the by-output index are pairwise different,
    and two entries that hold the same output are one entry. *)
Theorem by_output_index_unique :
  ∀ (compare : ProofRef → ProofRef → bool) (calls1 calls2 : list call)
    (final : ProofPool),
    run compare (calls1 ++ calls2) [] = Ok final →
    ∃ pool,
      run compare calls1 [] = Ok pool
      ∧ unique_utxo pool
      ∧ ∀ o e1 e2, e1 ∈ pool → e2 ∈ pool →
          getUTXO e1 = Some o → getUTXO e2 = Some o → e1 = e2.
Proof.
  intros compare calls1 calls2 final Hrun. rewrite run_app in Hrun.
  destruct (run compare calls1 []) as [pool|f] eqn:Hpool; [|done].
  exists pool. split; [done|].
  assert (Hu : unique_utxo pool).
  { apply inv_unique, (reachable_inv compare). by exists calls1. }
  split; [done|]. intros o e1 e2 H1 H2 Hk1 Hk2.
  apply (unique_utxo_inj pool); congruence.
Qed.

Lemma by_output_index_unique_witness :
  let O := mkOutPoint 1 0 in
  let P := mkOutPoint 2 0 in
  let A := mkProof 1 [O; P] in
  let B := mkProof 2 [O] in
  let calls1 := [AddProofIfNoConflict B; AddProofIfPreferred A] in
  let calls2 := [RemoveProof B; RemoveProof A] in
  run compareByProofId (calls1 ++ calls2) [] = Ok []
  ∧ ∃ pool, run compareByProofId calls1 [] = Ok pool ∧ unique_utxo pool.
Proof.
  intros O P A B calls1 calls2. split; [reflexivity|].
  destruct (by_output_index_unique compareByProofId calls1 calls2 [] eq_refl)
    as (pool & Hrun & Hu & _).
  exists pool. split; [exact Hrun|exact Hu].
Defined.

(** ** Rejection *)

(** C2: when [addProofIfNoConflict] returns [REJECTED] on a pool that a
    history of calls has left, the pool it leaves is the pool it found, so
    both indexes answer as before, and the conflicting proofs are, without
    repetition, the proofs that claim in the pool an output staked by the
    candidate. *)
Theorem rejection_is_atomic :
  ∀ (compare : ProofRef → ProofRef → bool) (p : ProofRef)
    (cps0 cps : ConflictingProofSet) (pool pool' : ProofPool),
    strict_total compare →
    reachable compare pool →
    addProofIfNoConflict compare p cps0 pool = Ok (REJECTED, cps, pool') →
    pool' = pool
    ∧ (∀ o, find_utxo o pool' = find_utxo o pool)
    ∧ (∀ id, find_proofid id pool' = find_proofid id pool)
    ∧ NoDup cps
    ∧ ∀ q, q ∈ cps ↔ ∃ o, o ∈ getStakes p ∧ claims pool q o.
Proof.
  intros compare p cps0 cps pool pool' Hc Hreach Hrun.
  pose proof (reachable_inv compare pool Hreach) as Hinv.
  pose proof (inv_unique pool Hinv) as Hu.
  apply addProofIfNoConflict_inv in Hrun; [|done].
  destruct Hrun as [(? & _)|[(_ & Hid & Hcoll & -> & ->)|(? & _)]]; [done| |done].
  split_and!; try done.
  - eapply sorted_NoDup; [done|]. apply insert_all_sorted; [done|constructor].
  - intros q. rewrite <- (colliding_elem_of _ _ _ Hu). split.
    + intros [Hq|Hq]%insert_all_elem_of; [by apply elem_of_nil in Hq|done].
    + intros Hq.
      destruct (insert_all_represented compare [] _ q Hq) as [|(y & Hy & Heq)];
        [done|].
      assert (Hy' : y ∈ colliding (getStakes p) pool).
      { apply insert_all_elem_of in Hy as [Hy|Hy]; [by apply elem_of_nil in Hy|done]. }
      apply (colliding_elem_of _ _ _ Hu) in Hq as (o1 & _ & e1 & He1 & Hp1 & _).
      apply (colliding_elem_of _ _ _ Hu) in Hy' as (o2 & _ & e2 & He2 & Hp2 & _).
      apply (equivalent_same_id _ _ _ Hc) in Heq.
      assert (Hqy : q = y); [|by rewrite Hqy].
      rewrite <- Hp1, <- Hp2. apply (inv_ids pool Hinv); [done|done|].
      unfold entryId. by rewrite Hp1, Hp2.
Qed.

Lemma rejection_is_atomic_witness :
  let O := mkOutPoint 1 0 in
  let P := mkOutPoint 2 0 in
  let A := mkProof 1 [O; P] in
  let B := mkProof 2 [O] in
  addProofIfNoConflict compareByProofId A [] [mkEntry 0 B]
  = Ok (REJECTED, [B], [mkEntry 0 B])
  ∧ NoDup [B].
Proof.
  intros O P A B. split; [reflexivity|].
  refine (proj1 (proj2 (proj2 (proj2
    (rejection_is_atomic compareByProofId A [] [B] [mkEntry 0 B] [mkEntry 0 B]
       compareByProofId_strict_total _ _))))).
  - exists [AddProofIfNoConflict B]. reflexivity.
  - reflexivity.
Defined.

(** ** Removal *)

(** C7: [removeProof] leaves the entries of the other proofs and none of the
    proof's, in either index; it returns [true] exactly when the pool had an
    entry of the proof, and when it returns [false] the pool is as
    before. *)
Theorem removeProof_removes_all :
  ∀ (p : ProofRef) (pool : ProofPool),
    let removed := (removeProof p pool).1 in
    let pool' := (removeProof p pool).2 in
    (∀ e, e ∈ pool' ↔ e ∈ pool ∧ entryId e ≠ getId p)
    ∧ find_proofid (getId p) pool' = None
    ∧ (∀ o it e, find_utxo o pool' = Some (it, e) → entryId e ≠ getId p)
    ∧ (removed = true ↔ ∃ e, e ∈ pool ∧ entryId e = getId p)
    ∧ (removed = false → pool' = pool).
Proof.
  intros p pool removed pool'.
  assert (Hmem : ∀ e, e ∈ pool' ↔ e ∈ pool ∧ entryId e ≠ getId p).
  { intros e. unfold pool'. rewrite removeProof_pool, list_elem_of_filter. tauto. }
  assert (Hcount : removed = true ↔ ∃ e, e ∈ pool ∧ entryId e = getId p).
  { unfold removed, removeProof, erase_proofid. simpl.
    rewrite negb_true_iff, Nat.eqb_neq. split.
    - intros Hlen.
      destruct (filter (λ e, entryId e = getId p) pool) as [|e l] eqn:Hf; [done|].
      exists e. apply and_comm. apply (list_elem_of_filter (λ e, entryId e = getId p)).
      rewrite Hf. apply list_elem_of_here.
    - intros (e & He & Hid) Hlen. apply length_zero_iff_nil in Hlen.
      by apply (filter_nil_not_elem_of _ _ e Hlen Hid). }
  split_and!; try done.
  - apply find_proofid_None. intros e He. by apply Hmem in He as [_ ?].
  - intros o it e [He _]%find_utxo_elem_of. by apply Hmem in He as [_ ?].
  - intros Hfalse. unfold pool'. rewrite removeProof_pool. apply filter_all.
    intros e He Hid. assert (removed = true) by (apply Hcount; eauto).
    congruence.
Qed.

(** ** Duplicates *)

Lemma find_proofid_entries_of p pool :
  getStakes p ≠ [] → is_Some (find_proofid (getId p) (pool ++ entries_of p)).
Proof.
  intros Hne. apply (list_find_elem_of _ _ (mkEntry 0 p)); [|done].
  apply elem_of_app. right. apply entries_of_elem_of. simpl. split; [done|].
  destruct (getStakes p); [done|simpl; lia].
Qed.

Lemma colliding_nil_getProof stakes pool :
  (∀ o, o ∈ stakes → getProof_outpoint o pool = None) →
  colliding stakes pool = [].
Proof.
  intros Hfree. apply colliding_nil. intros s Hs. apply find_utxo_None.
  specialize (Hfree s Hs). unfold getProof_outpoint in Hfree.
  by apply fmap_None in Hfree.
Qed.

(** C5: a proof whose identifier is in the by-proofid index is answered
    [DUPLICATED], the pool is left as it was and the conflicting proofs are
    empty. Hence, for a proof with at least one stake, as the proofs of the
    data model have: when a first insertion returns [SUCCEED], a second one
    returns [DUPLICATED] and leaves the pool, and so its size, as the first
    one left it. The first insertion does return [SUCCEED] when it meets no
    conflict, that is when the stakes of the proof are pairwise different,
    none of them is held in the pool and the identifier of the proof is not
    in the pool; the two insertions then return [SUCCEED] and
    [DUPLICATED]. *)
Theorem duplicate_insert :
  ∀ (compare : ProofRef → ProofRef → bool),
    (∀ p cps0 pool,
       is_Some (find_proofid (getId p) pool) →
       addProofIfNoConflict compare p cps0 pool = Ok (DUPLICATED, [], pool))
    ∧ (∀ p cps0 cps1 cps2 pool pool1,
         reachable compare pool →
         getStakes p ≠ [] →
         addProofIfNoConflict compare p cps0 pool = Ok (SUCCEED, cps1, pool1) →
         addProofIfNoConflict compare p cps2 pool1 = Ok (DUPLICATED, [], pool1))
    ∧ (∀ p cps0 pool,
         reachable compare pool →
         NoDup (getStakes p) →
         find_proofid (getId p) pool = None →
         (∀ o, o ∈ getStakes p → getProof_outpoint o pool = None) →
         addProofIfNoConflict compare p cps0 pool
         = Ok (SUCCEED, [], pool ++ entries_of p))
    ∧ (∀ p cps0 cps1 pool,
         reachable compare pool →
         getStakes p ≠ [] →
         NoDup (getStakes p) →
         find_proofid (getId p) pool = None →
         (∀ o, o ∈ getStakes p → getProof_outpoint o pool = None) →
         ∃ pool1,
           addProofIfNoConflict compare p cps0 pool = Ok (SUCCEED, [], pool1)
           ∧ addProofIfNoConflict compare p cps1 pool1
             = Ok (DUPLICATED, [], pool1)
           ∧ length pool1 = (length pool + length (getStakes p))%nat).
Proof.
  intros compare.
  assert (Hfirst : ∀ p cps0 pool,
            reachable compare pool →
            NoDup (getStakes p) →
            find_proofid (getId p) pool = None →
            (∀ o, o ∈ getStakes p → getProof_outpoint o pool = None) →
            addProofIfNoConflict compare p cps0 pool
            = Ok (SUCCEED, [], pool ++ entries_of p)).
  { intros p cps0 pool Hreach Hnd Hid Hfree.
    apply addProofIfNoConflict_succeed; [|done|done|].
    - by apply inv_unique, (reachable_inv compare).
    - by apply colliding_nil_getProof. }
  split_and!.
  - intros p cps0 pool. apply addProofIfNoConflict_duplicated.
  - intros p cps0 cps1 cps2 pool pool1 Hreach Hne Hrun.
    apply addProofIfNoConflict_inv in Hrun;
      [|by apply inv_unique, (reachable_inv compare)].
    destruct Hrun as [(? & _)|[(? & _)|(_ & _ & _ & _ & _ & ->)]]; [done|done|].
    by apply addProofIfNoConflict_duplicated, find_proofid_entries_of.
  - exact Hfirst.
  - intros p cps0 cps1 pool Hreach Hne Hnd Hid Hfree.
    exists (pool ++ entries_of p). split_and!.
    + by apply Hfirst.
    + by apply addProofIfNoConflict_duplicated, find_proofid_entries_of.
    + rewrite length_app. unfold entries_of.
      by rewrite length_fmap, length_seq.
Qed.

Lemma duplicate_insert_witness :
  let O := mkOutPoint 1 0 in
  let P := mkOutPoint 2 0 in
  let A := mkProof 1 [P] in
  let B := mkProof 2 [O] in
  reachable compareByProofId [mkEntry 0 B]
  ∧ ∃ pool1,
      addProofIfNoConflict compareByProofId A [] [mkEntry 0 B]
      = Ok (SUCCEED, [], pool1)
      ∧ addProofIfNoConflict compareByProofId A [] pool1
        = Ok (DUPLICATED, [], pool1)
      ∧ length pool1 = (length [mkEntry 0 B] + length (getStakes A))%nat.
Proof.
  intros O P A B.
  assert (Hreach : reachable compareByProofId [mkEntry 0 B]).
  { exists [AddProofIfNoConflict B]. reflexivity. }
  split; [exact Hreach|].
  apply (proj2 (proj2 (proj2 (duplicate_insert compareByProofId)))
           A [] [] [mkEntry 0 B] Hreach).
  - discriminate.
  - apply NoDup_singleton.
  - reflexivity.
  - intros o Ho. apply list_elem_of_singleton in Ho. rewrite Ho. reflexivity.
Defined.

(** ** A proof that stakes an output twice *)

Lemma NoDup_filter_lookup {A} (F : A → Prop) `{∀ x, Decision (F x)}
    (l : list A) : ∀ i j x,
  NoDup (filter F l) → l !! i = Some x → l !! j = Some x → F x → i = j.
Proof.
  induction l as [|y l IH]; intros i j x Hnd Hi Hj HF; [done|].
  assert (Htail : NoDup (filter F l)).
  { destruct (decide (F y)).
    - rewrite filter_cons_True in Hnd by done. by apply NoDup_cons in Hnd as [_ ?].
    - by rewrite filter_cons_False in Hnd. }
  assert (Hhead : ∀ k, (y :: l) !! 0%nat = Some x → l !! k = Some x → False).
  { intros k [= ->] Hk. rewrite filter_cons_True in Hnd by done.
    apply NoDup_cons in Hnd as [Hnotin _]. apply Hnotin.
    apply list_elem_of_filter. split; [done|]. by eapply list_elem_of_lookup_2. }
  destruct i as [|i], j as [|j]; simpl in *; [done| | |].
  - exfalso. by eapply Hhead.
  - exfalso. by eapply Hhead.
  - f_equal. by eapply IH.
Qed.

(** C10, what the code does: a proof that lists twice an output that no
    entry of the pool holds, and whose identifier is not in the pool, does
    not get [REJECTED] from [addProofIfNoConflict]. The clean-up loop erases
    the entry of the proof on that output at the first of the two stakes and
    does not find it at the second: the assertion [it != pool.end()]
    fails. *)
Theorem self_collision_fails_assertion :
  ∀ (compare : ProofRef → ProofRef → bool) (p : ProofRef)
    (cps0 : ConflictingProofSet) (pool : ProofPool) (i j : nat) (o : COutPoint),
    reachable compare pool →
    i ≠ j →
    getStakes p !! i = Some o →
    getStakes p !! j = Some o →
    getProof_outpoint o pool = None →
    find_proofid (getId p) pool = None →
    addProofIfNoConflict compare p cps0 pool = Err AssertionFailed.
Proof.
  intros compare p cps0 pool i j o Hreach Hij Hi Hj Hfree Hid.
  apply addProofIfNoConflict_self_collision; [|done|].
  - by apply inv_unique, (reachable_inv compare).
  - intros Hnd. apply Hij.
    eapply (NoDup_filter_lookup _ _ i j o Hnd Hi Hj).
    apply find_utxo_None. unfold getProof_outpoint in Hfree.
    by apply fmap_None in Hfree.
Qed.

Lemma self_collision_fails_assertion_witness :
  let O := mkOutPoint 1 0 in
  let A := mkProof 1 [O; O] in
  addProofIfNoConflict compareByProofId A [] [] = Err AssertionFailed.
Proof.
  intros O A.
  apply (self_collision_fails_assertion compareByProofId A [] [] 0 1 O).
  - exists []. reflexivity.
  - discriminate.
  - reflexivity.
  - reflexivity.
  - reflexivity.
  - reflexivity.
Defined.

(** C4, what the code does: the pool holds [B] on the output [O], left by
    [addProofIfNoConflict(B)] on the empty pool; [A] stakes [O] twice and is
    preferred to [B]. The first attempt is rejected with [B] as only
    conflict, [B] is removed, and the retry does not return [SUCCEED]: it
    stops on the assertion of the clean-up loop, and so does
    [addProofIfPreferred]. *)
Theorem retry_fails_assertion :
  let O := mkOutPoint 1 0 in
  let A := mkProof 1 [O; O] in
  let B := mkProof 2 [O] in
  run compareByProofId [AddProofIfNoConflict B] [] = Ok [mkEntry 0 B]
  ∧ addProofIfNoConflict compareByProofId A [] [mkEntry 0 B]
    = Ok (REJECTED, [B], [mkEntry 0 B])
  ∧ compareByProofId A B = true
  ∧ (removeProof B [mkEntry 0 B]).2 = []
  ∧ addProofIfNoConflict compareByProofId A [] [] = Err AssertionFailed
  ∧ addProofIfPreferred compareByProofId A [] [mkEntry 0 B]
    = Err AssertionFailed.
Proof. intros O A B. by split_and!. Qed.

(** ** Preference *)

Lemma getProof_outpoint_claims pool o q :
  getProof_outpoint o pool = Some q → claims pool q o.
Proof.
  unfold getProof_outpoint.
  destruct (find_utxo o pool) as [[it e]|] eqn:Hf; [|done].
  intros [= <-]. apply find_utxo_elem_of in Hf as [Hin He]. by exists e.
Qed.

Lemma find_proofid_elem_of id pool :
  is_Some (find_proofid id pool) → ∃ e, e ∈ pool ∧ entryId e = id.
Proof.
  intros [[it e] Hf]. apply list_find_Some in Hf as (Hit & Hid & _).
  exists e. split; [by eapply list_elem_of_lookup_2|done].
Qed.

Section Preference.
Variable compare : ProofRef → ProofRef → bool.
Hypothesis compare_order : strict_total compare.

(** Every proof inserted has its identifier in the set. *)
Lemma insert_all_ids cps qs q :
  q ∈ qs → getId q ∈ getId <$> insert_all compare cps qs.
Proof.
  intros Hq.
  destruct (insert_all_represented compare cps qs q Hq) as [Hin|(y & Hy & Heq)].
  - by apply list_elem_of_fmap_2.
  - rewrite (equivalent_same_id compare q y compare_order Heq).
    by apply list_elem_of_fmap_2.
Qed.

(** A proof, other than its holder [B], that stakes an output held in the
    pool has no entry there, when identifiers name proofs. *)
Lemma candidate_not_in_pool A B O pool :
  pool_inv pool →
  (∀ e, e ∈ pool → entryId e = getId A → proof e = A) →
  O ∈ getStakes A → claims pool B O → A ≠ B →
  find_proofid (getId A) pool = None.
Proof.
  intros Hinv Hids HO (eB & HeB & HpB & HkB) Hne.
  destruct (find_proofid (getId A) pool) as [it|] eqn:Hf; [|done].
  exfalso. apply Hne.
  destruct (find_proofid_elem_of (getId A) pool) as (e & He & Hid); [by eexists|].
  pose proof (Hids e He Hid) as Hp.
  apply list_elem_of_lookup in HO as [j Hj].
  assert (Hin : mkEntry j (proof e) ∈ pool).
  { apply (inv_full pool Hinv); [done|]. rewrite Hp. by eapply lookup_lt_Some. }
  rewrite Hp in Hin.
  assert (Heq : mkEntry j A = eB).
  { apply (unique_utxo_inj pool); [by apply inv_unique|done|done|].
    rewrite HkB. exact Hj. }
  rewrite <- HpB, <- Heq. done.
Qed.

(** Once the conflicting proofs are removed, the stakes of the candidate are
    free. *)
Lemma stakes_free_after_removal p pool :
  unique_utxo pool →
  let cps := insert_all compare [] (colliding (getStakes p) pool) in
  colliding (getStakes p) (filter (λ e, entryId e ∉ getId <$> cps) pool) = [].
Proof.
  intros Hu cps. apply colliding_nil. intros s Hs (e & Hk & He)%list_elem_of_fmap.
  apply list_elem_of_filter in He as [Hid He]. apply Hid.
  apply insert_all_ids. apply colliding_elem_of; [done|].
  exists s. split; [done|]. by exists e.
Qed.

(** The retry of [addProofIfPreferred], for a candidate whose stakes are
    pairwise different: it returns [SUCCEED]. *)
Lemma retry_succeeds p pool :
  pool_inv pool → NoDup (getStakes p) →
  find_proofid (getId p) pool = None →
  let cps := insert_all compare [] (colliding (getStakes p) pool) in
  let pool2 := foldl (λ pool c, (removeProof c pool).2) pool cps in
  addProofIfNoConflict compare p [] pool2
  = Ok (SUCCEED, [], pool2 ++ entries_of p)
  ∧ pool2 = filter (λ e, entryId e ∉ getId <$> cps) pool.
Proof.
  intros Hinv Hnd Hid cps pool2.
  assert (Hpool2 : pool2 = filter (λ e, entryId e ∉ getId <$> cps) pool).
  { unfold pool2. by rewrite remove_conflicting. }
  split; [|done]. rewrite Hpool2.
  apply addProofIfNoConflict_succeed; [| |done|].
  - eapply unique_utxo_sublist; [apply sublist_filter|by apply inv_unique].
  - apply find_proofid_None. intros e [_ He]%list_elem_of_filter.
    by apply (proj1 (find_proofid_None _ _) Hid).
  - apply stakes_free_after_removal. by apply inv_unique.
Qed.

Lemma addProofIfPreferred_override p cps0 pool best cps :
  pool_inv pool → NoDup (getStakes p) →
  find_proofid (getId p) pool = None →
  insert_all compare [] (colliding (getStakes p) pool) = best :: cps →
  compare p best = true →
  addProofIfPreferred compare p cps0 pool
  = Ok (SUCCEED, best :: cps,
        filter (λ e, entryId e ∉ getId <$> best :: cps) pool ++ entries_of p).
Proof.
  intros Hinv Hnd Hid Hcps Hbest. unfold addProofIfPreferred.
  rewrite addProofIfNoConflict_rejected; [|by apply inv_unique|done| |].
  - cbn [mbind result_bind not_added]. rewrite Hcps, Hbest.
    destruct (retry_succeeds p pool Hinv Hnd Hid) as [Hretry Hpool2].
    rewrite Hcps in Hretry, Hpool2. cbv zeta in Hretry.
    rewrite Hretry. cbn [mbind result_bind].
    rewrite decide_True by done. by rewrite Hpool2.
  - by apply NoDup_filter.
  - intros Hnil. by rewrite Hnil in Hcps.
Qed.

Lemma addProofIfPreferred_keep p cps0 pool best cps :
  pool_inv pool → NoDup (getStakes p) →
  find_proofid (getId p) pool = None →
  insert_all compare [] (colliding (getStakes p) pool) = best :: cps →
  compare p best = false →
  addProofIfPreferred compare p cps0 pool = Ok (REJECTED, best :: cps, pool).
Proof.
  intros Hinv Hnd Hid Hcps Hbest. unfold addProofIfPreferred.
  rewrite addProofIfNoConflict_rejected; [|by apply inv_unique|done| |].
  - cbn [mbind result_bind not_added]. by rewrite Hcps, Hbest.
  - by apply NoDup_filter.
  - intros Hnil. by rewrite Hnil in Hcps.
Qed.

End Preference.

(** C3, as the code has it. In a pool left by a history of calls, [B] holds
    the output [O]; [A] stakes [O], its stakes are pairwise different, and an
    entry with the identifier of [A] carries [A]. When the comparator ranks
    [A] ahead of every proof that holds one of its outputs, and so ahead of
    [B], [addProofIfPreferred(A)] returns [SUCCEED], no entry of [B] is left
    and [getProof(O)] is [A]. When the comparator ranks [B] ahead of [A], it
    returns [REJECTED] and leaves the pool as it was, [B] holding [O]. *)
Theorem preference_resolution :
  ∀ (compare : ProofRef → ProofRef → bool) (A B : ProofRef) (O : COutPoint)
    (cps0 : ConflictingProofSet) (pool : ProofPool),
    strict_total compare →
    reachable compare pool →
    NoDup (getStakes A) →
    (∀ e, e ∈ pool → entryId e = getId A → proof e = A) →
    O ∈ getStakes A →
    getProof_outpoint O pool = Some B →
    ((∀ q o, o ∈ getStakes A → claims pool q o → compare A q = true) →
     ∃ cps pool',
       addProofIfPreferred compare A cps0 pool = Ok (SUCCEED, cps, pool')
       ∧ getProof_proofid (getId B) pool' = None
       ∧ (∀ e, e ∈ pool' → proof e ≠ B)
       ∧ getProof_outpoint O pool' = Some A)
    ∧ (compare B A = true →
       ∃ cps,
         addProofIfPreferred compare A cps0 pool = Ok (REJECTED, cps, pool)
         ∧ getProof_outpoint O pool = Some B).
Proof.
  intros compare A B O cps0 pool Hc Hreach Hnd Hids HO HB.
  pose proof (reachable_inv compare pool Hreach) as Hinv.
  pose proof (inv_unique pool Hinv) as Hu.
  pose proof (getProof_outpoint_claims _ _ _ HB) as Hclaims.
  assert (Hcoll : B ∈ colliding (getStakes A) pool).
  { apply colliding_elem_of; [done|]. by exists O. }
  set (cps1 := insert_all compare [] (colliding (getStakes A) pool)).
  assert (Hsorted : StronglySorted (λ a b, compare a b = true) cps1).
  { apply insert_all_sorted; [done|constructor]. }
  assert (Hsound : ∀ q, q ∈ cps1 → ∃ o, o ∈ getStakes A ∧ claims pool q o).
  { intros q [Hq|Hq]%insert_all_elem_of; [by apply elem_of_nil in Hq|].
    by apply colliding_elem_of in Hq. }
  destruct cps1 as [|best cps] eqn:Hcps.
  { apply insert_all_nil in Hcps as [_ Hnil]. rewrite Hnil in Hcoll.
    by apply elem_of_nil in Hcoll. }
  split.
  - intros Hahead.
    assert (HAB : compare A B = true) by (by eapply Hahead).
    assert (Hne : A ≠ B).
    { intros ->. by rewrite (compare_irrefl _ Hc) in HAB. }
    pose proof (candidate_not_in_pool A B O pool Hinv Hids HO Hclaims Hne) as Hid.
    assert (Hbest : compare A best = true).
    { destruct (Hsound best (list_elem_of_here _ _)) as (o & Ho & Hq).
      by eapply Hahead. }
    eexists _, _. split_and!.
    + by apply addProofIfPreferred_override.
    + unfold getProof_proofid. apply fmap_None, find_proofid_None.
      intros e [[Hid' He]%list_elem_of_filter|[Hp _]%entries_of_elem_of]%elem_of_app.
      * intros Heq. apply Hid'. rewrite Heq, <- Hcps.
        by apply insert_all_ids.
      * intros Heq. unfold entryId in Heq. rewrite Hp in Heq.
        destruct Hclaims as (eB & HeB & HpB & _).
        apply Hne. rewrite <- HpB. symmetry. apply Hids; [done|].
        unfold entryId. by rewrite HpB.
    + intros e [[Hid' He]%list_elem_of_filter|[Hp _]%entries_of_elem_of]%elem_of_app HeB.
      * apply Hid'. unfold entryId. rewrite HeB, <- Hcps. by apply insert_all_ids.
      * apply Hne. by rewrite <- Hp.
    + assert (Hfree : Some O ∉
                keys (filter (λ e, entryId e ∉ getId <$> best :: cps) pool)).
      { pose proof (stakes_free_after_removal compare Hc A pool Hu) as Hnil.
        simpl in Hnil. fold cps1 in Hnil. rewrite Hcps in Hnil.
        by apply (proj1 (colliding_nil _ _) Hnil). }
      destruct (find_utxo_is_Some O
                  (filter (λ e, entryId e ∉ getId <$> best :: cps) pool
                   ++ entries_of A)) as (it & e & Hf).
      { rewrite keys_app, elem_of_app. right. rewrite keys_entries_of.
        by apply list_elem_of_fmap_2. }
      unfold getProof_outpoint. rewrite Hf. simpl. f_equal.
      apply find_utxo_elem_of in Hf as [He Hk].
      apply elem_of_app in He as [He|He].
      * exfalso. apply Hfree. rewrite <- Hk. by apply list_elem_of_fmap_2.
      * by apply entries_of_elem_of in He as [? _].
  - intros HBA.
    assert (Hne : A ≠ B).
    { intros ->. by rewrite (compare_irrefl _ Hc) in HBA. }
    pose proof (candidate_not_in_pool A B O pool Hinv Hids HO Hclaims Hne) as Hid.
    assert (Hbest : compare A best = false).
    { destruct (compare A best) eqn:Hbest; [exfalso|done].
      assert (Hy : ∃ y, y ∈ best :: cps ∧ compare B y = false).
      { destruct (insert_all_represented compare [] _ B Hcoll)
          as [Hin|(y & Hy & Heq & _)].
        - exists B. fold cps1 in Hin. rewrite Hcps in Hin.
          split; [done|]. apply (compare_irrefl _ Hc).
        - exists y. fold cps1 in Hy. rewrite Hcps in Hy. done. }
      destruct Hy as (y & Hy & HBy).
      assert (HAy : compare A y = true).
      { destruct (sorted_head_best compare best cps y Hsorted Hy) as [->|Hby];
          [done|]. by eapply compare_trans. }
      by rewrite (compare_trans _ Hc B A y HBA HAy) in HBy. }
    exists (best :: cps). split; [|done].
    by apply addProofIfPreferred_keep.
Qed.

Lemma preference_resolution_witness :
  let O := mkOutPoint 1 0 in
  let P := mkOutPoint 2 0 in
  let A := mkProof 1 [O; P] in
  let A' := mkProof 3 [O; P] in
  let B := mkProof 2 [O] in
  reachable compareByProofId [mkEntry 0 B]
  ∧ getProof_outpoint O [mkEntry 0 B] = Some B
  ∧ (∃ cps pool',
       addProofIfPreferred compareByProofId A [] [mkEntry 0 B]
       = Ok (SUCCEED, cps, pool')
       ∧ getProof_proofid (getId B) pool' = None
       ∧ (∀ e, e ∈ pool' → proof e ≠ B)
       ∧ getProof_outpoint O pool' = Some A)
  ∧ (∃ cps,
       addProofIfPreferred compareByProofId A' [] [mkEntry 0 B]
       = Ok (REJECTED, cps, [mkEntry 0 B])
       ∧ getProof_outpoint O [mkEntry 0 B] = Some B).
Proof.
  intros O P A A' B.
  assert (Hreach : reachable compareByProofId [mkEntry 0 B]).
  { exists [AddProofIfNoConflict B]. reflexivity. }
  assert (Hnd : NoDup [O; P]).
  { apply NoDup_cons. split; [|apply NoDup_singleton].
    rewrite list_elem_of_singleton. discriminate. }
  split; [exact Hreach|]. split; [reflexivity|]. split.
  - refine (proj1 (preference_resolution compareByProofId A B O [] [mkEntry 0 B]
                     compareByProofId_strict_total Hreach Hnd _ _ _) _).
    + intros e ->%list_elem_of_singleton. discriminate.
    + apply list_elem_of_here.
    + reflexivity.
    + intros q o _ (e & ->%list_elem_of_singleton & <- & _). reflexivity.
  - refine (proj2 (preference_resolution compareByProofId A' B O [] [mkEntry 0 B]
                     compareByProofId_strict_total Hreach Hnd _ _ _) _).
    + intros e ->%list_elem_of_singleton. discriminate.
    + apply list_elem_of_here.
    + reflexivity.
    + reflexivity.
Defined.

(** C3 as stated fails when [A] conflicts with a second proof that is
    preferred to it: [B] holds [O], [C] holds [P], [A] stakes both,
    and the comparator ranks [C] ahead of [A] and [A] ahead of [B]. The
    candidate is compared with [C], the best of its conflicts, and
    [addProofIfPreferred(A)] returns [REJECTED]. *)
Lemma preferred_to_one_conflict_only :
  let O := mkOutPoint 1 0 in
  let P := mkOutPoint 2 0 in
  let A := mkProof 2 [O; P] in
  let B := mkProof 3 [O] in
  let C := mkProof 1 [P] in
  let pool := [mkEntry 0 B; mkEntry 0 C] in
  run compareByProofId [AddProofIfNoConflict B; AddProofIfNoConflict C] []
  = Ok pool
  ∧ O ∈ getStakes A
  ∧ getProof_outpoint O pool = Some B
  ∧ compareByProofId A B = true
  ∧ addProofIfPreferred compareByProofId A [] pool = Ok (REJECTED, [C; B], pool)
  ∧ getProof_outpoint O pool ≠ Some A.
Proof.
  intros O P A B C pool. split_and!; try done. apply list_elem_of_here.
Qed.

(** * Further properties of the pool and of the slots *)

(** ** Lookups, entry by entry *)

Lemma getProof_outpoint_unfold o (e : ProofPoolEntry) (pool : ProofPool) :
  getProof_outpoint o (e :: pool)
  = if decide (getUTXO e = Some o) then Some (proof e)
    else getProof_outpoint o pool.
Proof.
  unfold getProof_outpoint, find_utxo. cbn [list_find].
  destruct (decide (getUTXO e = Some o)); [done|].
  by destruct (list_find _ pool) as [[it e']|].
Qed.

Lemma getProof_proofid_unfold id (e : ProofPoolEntry) (pool : ProofPool) :
  getProof_proofid id (e :: pool)
  = if decide (entryId e = id) then Some (proof e)
    else getProof_proofid id pool.
Proof.
  unfold getProof_proofid, find_proofid. cbn [list_find].
  destruct (decide (entryId e = id)); [done|].
  by destruct (list_find _ pool) as [[it e']|].
Qed.

Lemma getProof_outpoint_app o (pool1 pool2 : ProofPool) :
  getProof_outpoint o (pool1 ++ pool2)
  = match getProof_outpoint o pool1 with
    | Some q => Some q
    | None => getProof_outpoint o pool2
    end.
Proof.
  induction pool1 as [|e pool1 IH]; [done|].
  rewrite <- app_comm_cons, !getProof_outpoint_unfold.
  by destruct (decide _).
Qed.

Lemma getProof_proofid_app id (pool1 pool2 : ProofPool) :
  getProof_proofid id (pool1 ++ pool2)
  = match getProof_proofid id pool1 with
    | Some q => Some q
    | None => getProof_proofid id pool2
    end.
Proof.
  induction pool1 as [|e pool1 IH]; [done|].
  rewrite <- app_comm_cons, !getProof_proofid_unfold.
  by destruct (decide _).
Qed.

Lemma getProof_outpoint_None o pool :
  getProof_outpoint o pool = None ↔ Some o ∉ keys pool.
Proof.
  unfold getProof_outpoint. rewrite fmap_None. apply find_utxo_None.
Qed.

Lemma getProof_proofid_None id pool :
  getProof_proofid id pool = None ↔ ∀ e, e ∈ pool → entryId e ≠ id.
Proof.
  unfold getProof_proofid. rewrite fmap_None. apply find_proofid_None.
Qed.

Lemma getProof_proofid_Some id pool p :
  getProof_proofid id pool = Some p →
  ∃ e, e ∈ pool ∧ entryId e = id ∧ proof e = p.
Proof.
  unfold getProof_proofid.
  destruct (find_proofid id pool) as [[it e]|] eqn:Hf; [|done].
  intros [= <-]. apply list_find_Some in Hf as (Hit & Hid & _).
  exists e. split_and!; [by eapply list_elem_of_lookup_2|done|done].
Qed.

Lemma getProof_outpoint_Some o pool p :
  unique_utxo pool →
  getProof_outpoint o pool = Some p ↔ claims pool p o.
Proof.
  intros Hu. split; [apply getProof_outpoint_claims|].
  intros (e & He & <- & Hk). unfold getProof_outpoint.
  by destruct (find_utxo_unique o pool e Hu He Hk) as [it ->].
Qed.

Lemma getProof_proofid_elem_of pool e :
  pool_inv pool → e ∈ pool →
  getProof_proofid (entryId e) pool = Some (proof e).
Proof.
  intros Hinv He.
  destruct (getProof_proofid (entryId e) pool) as [q|] eqn:Hq.
  - apply getProof_proofid_Some in Hq as (e' & He' & Hid & <-).
    f_equal. by apply (inv_ids pool Hinv).
  - exfalso. by apply (proj1 (getProof_proofid_None _ _) Hq e He).
Qed.

Lemma getProof_outpoint_entries_of o p :
  getProof_outpoint o (entries_of p)
  = if decide (o ∈ getStakes p) then Some p else None.
Proof.
  destruct (decide (o ∈ getStakes p)) as [Hin|Hnotin].
  - destruct (find_utxo_is_Some o (entries_of p)) as (it & e & Hf).
    { rewrite keys_entries_of. by apply list_elem_of_fmap_2. }
    unfold getProof_outpoint. rewrite Hf. simpl. f_equal.
    apply find_utxo_elem_of in Hf as [He _].
    by apply entries_of_elem_of in He as [? _].
  - apply getProof_outpoint_None. rewrite keys_entries_of.
    intros (o' & [= ->] & Ho')%list_elem_of_fmap. done.
Qed.

Lemma getProof_proofid_entries_of id p :
  getProof_proofid id (entries_of p)
  = if decide (getId p = id ∧ getStakes p ≠ []) then Some p else None.
Proof.
  destruct (decide _) as [[Hid Hne]|Hno].
  - destruct (getProof_proofid id (entries_of p)) as [q|] eqn:Hq.
    + apply getProof_proofid_Some in Hq as (e & He & _ & <-).
      f_equal. by apply entries_of_elem_of in He as [? _].
    + exfalso.
      apply (proj1 (getProof_proofid_None _ _) Hq (mkEntry 0 p)); [|done].
      apply entries_of_elem_of. split; [done|]. simpl.
      destruct (getStakes p); [done|simpl; lia].
  - apply getProof_proofid_None. intros e [Hp Hlt]%entries_of_elem_of Hid.
    apply Hno. unfold entryId in Hid. rewrite Hp in Hid. split; [done|].
    intros Hnil. rewrite Hnil in Hlt. simpl in Hlt. lia.
Qed.

(** The lookups after erasing the entries that fail a test, with unique
    keys. *)
Lemma getProof_outpoint_filter (P : ProofPoolEntry → Prop)
    `{∀ e, Decision (P e)} o pool :
  unique_utxo pool →
  getProof_outpoint o (filter P pool)
  = match find_utxo o pool with
    | Some (_, e) => if decide (P e) then Some (proof e) else None
    | None => None
    end.
Proof.
  intros Hu.
  assert (Hu' : unique_utxo (filter P pool)).
  { eapply unique_utxo_sublist; [apply sublist_filter|done]. }
  destruct (find_utxo o pool) as [[it e]|] eqn:Hf.
  - apply find_utxo_elem_of in Hf as [He Hk].
    destruct (decide (P e)) as [HP|HP].
    + apply getProof_outpoint_Some; [done|]. exists e.
      split_and!; [by apply list_elem_of_filter|done|done].
    + apply getProof_outpoint_None.
      intros (e' & Hk' & [HP' He']%list_elem_of_filter)%list_elem_of_fmap.
      apply HP. rewrite (unique_utxo_inj pool e e' Hu He He'); [done|congruence].
  - apply getProof_outpoint_None. apply find_utxo_None in Hf.
    intros Hin. apply Hf. eapply keys_sublist; [apply (sublist_filter P)|done].
Qed.

Lemma getProof_proofid_filter (Q : ProofId → Prop) `{∀ id, Decision (Q id)}
    id (pool : ProofPool) :
  getProof_proofid id (filter (λ e, Q (entryId e)) pool)
  = if decide (Q id) then getProof_proofid id pool else None.
Proof.
  induction pool as [|e pool IH].
  - by destruct (decide (Q id)).
  - rewrite getProof_proofid_unfold.
    destruct (decide (Q (entryId e))) as [HQ|HQ].
    + rewrite filter_cons_True by done. rewrite getProof_proofid_unfold, IH.
      destruct (decide (entryId e = id)) as [<-|]; [|done].
      by destruct (decide (Q (entryId e))).
    + rewrite filter_cons_False by done. rewrite IH.
      destruct (decide (entryId e = id)) as [<-|]; [|done].
      by destruct (decide (Q (entryId e))).
Qed.

(** In a well-formed pool, the stakes of a proof that has an entry are
    pairwise different, and its entries are the ones [addProofIfNoConflict]
    made, one for each stake. *)
Lemma pool_inv_entries pool e :
  pool_inv pool → e ∈ pool →
  NoDup (getStakes (proof e))
  ∧ filter (λ e', entryId e' = entryId e) pool ≡ₚ entries_of (proof e).
Proof.
  intros Hinv He.
  assert (Hsub : ∀ e', e' ∈ entries_of (proof e) → e' ∈ pool).
  { intros e' [Hp Hlt]%entries_of_elem_of.
    replace e' with (mkEntry (utxoIndex e') (proof e))
      by (destruct e'; simpl in *; by subst).
    by apply (inv_full pool Hinv). }
  assert (Hnd : NoDup (entries_of (proof e))).
  { unfold entries_of. apply NoDup_fmap_2; [|apply NoDup_seq].
    intros i j [= ->]. done. }
  split.
  - apply (NoDup_fmap_1 Some). rewrite <- keys_entries_of.
    apply NoDup_fmap_2_strong; [|done].
    intros e1 e2 H1 H2. apply (unique_utxo_inj pool); auto using inv_unique.
  - apply NoDup_Permutation; [|done|].
    + apply NoDup_filter. eapply NoDup_fmap_1. apply (inv_unique pool Hinv).
    + intros e'. rewrite list_elem_of_filter, entries_of_elem_of. split.
      * intros [Hid He']. split; [by apply (inv_ids pool Hinv)|].
        rewrite <- (inv_ids pool Hinv e' e He' He Hid).
        destruct (inv_index pool Hinv e' He') as [o Ho].
        by eapply lookup_lt_Some.
      * intros [Hp Hlt]. split; [unfold entryId; by rewrite Hp|].
        apply Hsub. by apply entries_of_elem_of.
Qed.

(** ** The two lookups agree *)

(** X1: in a pool left by a history of calls, the proof that [getProof]
    returns for an outpoint stakes that outpoint, is the proof that
    [getProof] returns for its identifier, and is returned for every one of
    its stakes. *)
Theorem lookups_agree :
  ∀ (compare : ProofRef → ProofRef → bool) (pool : ProofPool)
    (o : COutPoint) (p : ProofRef),
    reachable compare pool →
    getProof_outpoint o pool = Some p →
    o ∈ getStakes p
    ∧ getProof_proofid (getId p) pool = Some p
    ∧ ∀ o', o' ∈ getStakes p → getProof_outpoint o' pool = Some p.
Proof.
  intros compare pool o p Hreach Ho.
  pose proof (reachable_inv compare pool Hreach) as Hinv.
  apply getProof_outpoint_claims in Ho as (e & He & <- & Hk).
  split_and!.
  - by eapply list_elem_of_lookup_2.
  - by apply (getProof_proofid_elem_of pool e).
  - intros o' [j Hj]%list_elem_of_lookup.
    apply getProof_outpoint_Some; [by apply inv_unique|].
    exists (mkEntry j (proof e)). split_and!; [|done|done].
    apply (inv_full pool Hinv); [done|]. by eapply lookup_lt_Some.
Qed.

Lemma lookups_agree_witness :
  let O := mkOutPoint 1 0 in
  let P := mkOutPoint 2 0 in
  let A := mkProof 1 [O; P] in
  let pool := [mkEntry 0 A; mkEntry 1 A] in
  getProof_outpoint P pool = Some A
  ∧ getProof_proofid (getId A) pool = Some A.
Proof.
  intros O P A pool. split; [reflexivity|].
  refine (proj1 (proj2 (lookups_agree compareByProofId pool P A _ _))).
  - exists [AddProofIfNoConflict A]. reflexivity.
  - reflexivity.
Defined.

(** X2: in a pool left by a history of calls, the proof that [getProof]
    returns for an identifier has that identifier, has at least one stake,
    has pairwise different stakes, and is returned by [getProof] for each of
    them. *)
Theorem getProof_by_id_holds_all_stakes :
  ∀ (compare : ProofRef → ProofRef → bool) (pool : ProofPool)
    (id : ProofId) (p : ProofRef),
    reachable compare pool →
    getProof_proofid id pool = Some p →
    getId p = id
    ∧ getStakes p ≠ []
    ∧ NoDup (getStakes p)
    ∧ ∀ o, o ∈ getStakes p → getProof_outpoint o pool = Some p.
Proof.
  intros compare pool id p Hreach Hid.
  pose proof (reachable_inv compare pool Hreach) as Hinv.
  apply getProof_proofid_Some in Hid as (e & He & Hid & <-).
  split_and!.
  - done.
  - destruct (inv_index pool Hinv e He) as [o Ho]. unfold getUTXO in Ho.
    intros Hnil. by rewrite Hnil in Ho.
  - by apply (pool_inv_entries pool e).
  - intros o [j Hj]%list_elem_of_lookup.
    apply getProof_outpoint_Some; [by apply inv_unique|].
    exists (mkEntry j (proof e)). split_and!; [|done|done].
    apply (inv_full pool Hinv); [done|]. by eapply lookup_lt_Some.
Qed.

Lemma getProof_by_id_holds_all_stakes_witness :
  let O := mkOutPoint 1 0 in
  let P := mkOutPoint 2 0 in
  let A := mkProof 1 [O; P] in
  let pool := [mkEntry 0 A; mkEntry 1 A] in
  getProof_proofid 1 pool = Some A
  ∧ ∀ o, o ∈ getStakes A → getProof_outpoint o pool = Some A.
Proof.
  intros O P A pool. split; [reflexivity|].
  refine (proj2 (proj2 (proj2
    (getProof_by_id_holds_all_stakes compareByProofId pool 1%N A _ _)))).
  - exists [AddProofIfNoConflict A]. reflexivity.
  - reflexivity.
Defined.

(** ** Insertion and lookup *)

(** X3: when [addProofIfNoConflict] returns [SUCCEED] on a pool left by a
    history of calls, [getProof] returns the proof for each of its stakes
    and, if it has a stake, for its identifier; the pool has one more entry
    for each stake. *)
Theorem insert_then_lookup :
  ∀ (compare : ProofRef → ProofRef → bool) (p : ProofRef)
    (cps0 cps : ConflictingProofSet) (pool pool' : ProofPool),
    reachable compare pool →
    addProofIfNoConflict compare p cps0 pool = Ok (SUCCEED, cps, pool') →
    (∀ o, o ∈ getStakes p → getProof_outpoint o pool' = Some p)
    ∧ (getStakes p ≠ [] → getProof_proofid (getId p) pool' = Some p)
    ∧ length pool' = (length pool + length (getStakes p))%nat.
Proof.
  intros compare p cps0 cps pool pool' Hreach Hrun.
  pose proof (reachable_inv compare pool Hreach) as Hinv.
  apply addProofIfNoConflict_inv in Hrun; [|by apply inv_unique].
  destruct Hrun as [(? & _)|[(? & _)|(_ & Hid & Hnd & Hcoll & _ & ->)]];
    [done|done|].
  split_and!.
  - intros o Ho. rewrite getProof_outpoint_app.
    rewrite (proj2 (getProof_outpoint_None o pool)).
    + rewrite getProof_outpoint_entries_of. by rewrite decide_True.
    + by apply (proj1 (colliding_nil _ _) Hcoll).
  - intros Hne. rewrite getProof_proofid_app.
    rewrite (proj2 (getProof_proofid_None (getId p) pool)).
    + rewrite getProof_proofid_entries_of. by rewrite decide_True.
    + by apply find_proofid_None.
  - rewrite length_app. unfold entries_of. by rewrite length_fmap, length_seq.
Qed.

Lemma insert_then_lookup_witness :
  let O := mkOutPoint 1 0 in
  let P := mkOutPoint 2 0 in
  let A := mkProof 1 [P] in
  let B := mkProof 2 [O] in
  addProofIfNoConflict compareByProofId A [] [mkEntry 0 B]
  = Ok (SUCCEED, [], [mkEntry 0 B; mkEntry 0 A])
  ∧ ∀ o, o ∈ getStakes A →
         getProof_outpoint o [mkEntry 0 B; mkEntry 0 A] = Some A.
Proof.
  intros O P A B. split; [reflexivity|].
  refine (proj1 (insert_then_lookup compareByProofId A [] [] [mkEntry 0 B]
                   [mkEntry 0 B; mkEntry 0 A] _ _)).
  - exists [AddProofIfNoConflict B]. reflexivity.
  - reflexivity.
Defined.

(** X4: when [addProofIfNoConflict] returns [SUCCEED] on a pool left by a
    history of calls, the lookups of the outpoints that the proof does not
    stake, and of the other identifiers, answer as before. *)
Theorem insert_keeps_other_lookups :
  ∀ (compare : ProofRef → ProofRef → bool) (p : ProofRef)
    (cps0 cps : ConflictingProofSet) (pool pool' : ProofPool),
    reachable compare pool →
    addProofIfNoConflict compare p cps0 pool = Ok (SUCCEED, cps, pool') →
    (∀ o, o ∉ getStakes p → getProof_outpoint o pool' = getProof_outpoint o pool)
    ∧ (∀ id, id ≠ getId p → getProof_proofid id pool' = getProof_proofid id pool).
Proof.
  intros compare p cps0 cps pool pool' Hreach Hrun.
  pose proof (reachable_inv compare pool Hreach) as Hinv.
  apply addProofIfNoConflict_inv in Hrun; [|by apply inv_unique].
  destruct Hrun as [(? & _)|[(? & _)|(_ & Hid & Hnd & Hcoll & _ & ->)]];
    [done|done|].
  split.
  - intros o Ho. rewrite getProof_outpoint_app, getProof_outpoint_entries_of.
    rewrite decide_False by done. by destruct (getProof_outpoint o pool).
  - intros id Hne. rewrite getProof_proofid_app, getProof_proofid_entries_of.
    rewrite decide_False by (intros [? _]; congruence).
    by destruct (getProof_proofid id pool).
Qed.

Lemma insert_keeps_other_lookups_witness :
  let O := mkOutPoint 1 0 in
  let P := mkOutPoint 2 0 in
  let A := mkProof 1 [P] in
  let B := mkProof 2 [O] in
  addProofIfNoConflict compareByProofId A [] [mkEntry 0 B]
  = Ok (SUCCEED, [], [mkEntry 0 B; mkEntry 0 A])
  ∧ getProof_outpoint O [mkEntry 0 B; mkEntry 0 A]
    = getProof_outpoint O [mkEntry 0 B].
Proof.
  intros O P A B. split; [reflexivity|].
  refine (proj1 (insert_keeps_other_lookups compareByProofId A [] []
                   [mkEntry 0 B] [mkEntry 0 B; mkEntry 0 A] _ _) O _).
  - exists [AddProofIfNoConflict B]. reflexivity.
  - reflexivity.
  - intros H%list_elem_of_singleton. discriminate H.
Defined.

(** ** Removal and lookup *)

Lemma getProof_proofid_removed id p (pool : ProofPool) :
  getProof_proofid id (filter (λ e, entryId e ≠ getId p) pool)
  = if decide (id = getId p) then None else getProof_proofid id pool.
Proof.
  pose proof (getProof_proofid_filter (λ i, i ≠ getId p) id pool) as H.
  simpl in H. rewrite H.
  destruct (decide (id = getId p));
    [by rewrite decide_False by tauto|by rewrite decide_True].
Qed.

Lemma removeProof_found p pool :
  (removeProof p pool).1 = true ↔ is_Some (getProof_proofid (getId p) pool).
Proof.
  unfold removeProof, erase_proofid. simpl.
  rewrite negb_true_iff, Nat.eqb_neq, <- not_eq_None_Some.
  rewrite getProof_proofid_None. split.
  - intros Hlen Hall. apply Hlen. by rewrite filter_none.
  - intros Hsome Hlen. apply Hsome. intros e He Hid.
    apply length_zero_iff_nil in Hlen.
    by apply (filter_nil_not_elem_of _ _ e Hlen Hid).
Qed.

(** X5: in a pool left by a history of calls, [removeProof(p)] returns
    [true] exactly when [getProof] had a proof for the identifier of [p];
    afterwards [getProof] has none for that identifier, answers as before
    for the other identifiers, has no proof for the outpoints that a proof
    with the identifier of [p] held, and answers as before for the other
    outpoints. *)
Theorem remove_then_lookup :
  ∀ (compare : ProofRef → ProofRef → bool) (p : ProofRef) (pool : ProofPool),
    reachable compare pool →
    let pool' := (removeProof p pool).2 in
    ((removeProof p pool).1 = true
     ↔ is_Some (getProof_proofid (getId p) pool))
    ∧ getProof_proofid (getId p) pool' = None
    ∧ (∀ id, id ≠ getId p →
             getProof_proofid id pool' = getProof_proofid id pool)
    ∧ (∀ o, getProof_outpoint o pool'
            = match getProof_outpoint o pool with
              | Some q => if decide (getId q = getId p) then None else Some q
              | None => None
              end).
Proof.
  intros compare p pool Hreach pool'.
  pose proof (reachable_inv compare pool Hreach) as Hinv.
  unfold pool'. rewrite removeProof_pool. split_and!.
  - apply removeProof_found.
  - by rewrite getProof_proofid_removed, decide_True.
  - intros id Hne. by rewrite getProof_proofid_removed, decide_False.
  - intros o. rewrite getProof_outpoint_filter by (by apply inv_unique).
    unfold getProof_outpoint.
    destruct (find_utxo o pool) as [[it e]|]; [|done]. simpl.
    unfold entryId.
    destruct (decide (getId (proof e) = getId p));
      [by rewrite decide_False by tauto|by rewrite decide_True].
Qed.

Lemma remove_then_lookup_witness :
  let O := mkOutPoint 1 0 in
  let P := mkOutPoint 2 0 in
  let A := mkProof 1 [P] in
  let B := mkProof 2 [O] in
  reachable compareByProofId [mkEntry 0 B; mkEntry 0 A]
  ∧ getProof_proofid (getId B) (removeProof B [mkEntry 0 B; mkEntry 0 A]).2
    = None.
Proof.
  intros O P A B.
  assert (Hreach : reachable compareByProofId [mkEntry 0 B; mkEntry 0 A]).
  { exists [AddProofIfNoConflict B; AddProofIfNoConflict A]. reflexivity. }
  split; [exact Hreach|].
  exact (proj1 (proj2 (remove_then_lookup compareByProofId B
                         [mkEntry 0 B; mkEntry 0 A] Hreach))).
Defined.

(** X6: removing a proof a second time finds nothing and changes nothing:
    [removeProof] returns [false] and the pool stays as the first removal
    left it. *)
Theorem removeProof_twice :
  ∀ (p : ProofRef) (pool : ProofPool),
    removeProof p (removeProof p pool).2 = (false, (removeProof p pool).2).
Proof.
  intros p pool. rewrite removeProof_pool.
  unfold removeProof, erase_proofid. simpl. f_equal.
  - rewrite filter_none; [done|].
    intros e [Hne _]%list_elem_of_filter Hid. by apply Hne.
  - apply filter_all. by intros e [Hne _]%list_elem_of_filter.
Qed.

(** X7: removals commute: removing [p] then [q] leaves the pool that
    removing [q] then [p] leaves, and when their identifiers differ removing
    [q] first does not change what the removal of [p] returns. *)
Theorem removeProof_commute :
  ∀ (p q : ProofRef) (pool : ProofPool),
    (removeProof p (removeProof q pool).2).2
    = (removeProof q (removeProof p pool).2).2
    ∧ (getId p ≠ getId q →
       (removeProof p (removeProof q pool).2).1 = (removeProof p pool).1).
Proof.
  intros p q pool. rewrite !removeProof_pool. split.
  - rewrite !list_filter_filter. apply list_filter_iff. tauto.
  - intros Hne. unfold removeProof, erase_proofid. simpl. do 3 f_equal.
    rewrite list_filter_filter. apply list_filter_iff.
    intros e. split; [tauto|]. intros Hid. split; [done|congruence].
Qed.

Lemma removeProof_commute_witness :
  let O := mkOutPoint 1 0 in
  let P := mkOutPoint 2 0 in
  let A := mkProof 1 [P] in
  let B := mkProof 2 [O] in
  getId A ≠ getId B
  ∧ (removeProof A (removeProof B [mkEntry 0 B; mkEntry 0 A]).2).1
    = (removeProof A [mkEntry 0 B; mkEntry 0 A]).1.
Proof.
  intros O P A B.
  assert (Hne : getId A ≠ getId B) by discriminate.
  split; [exact Hne|].
  exact (proj2 (removeProof_commute A B [mkEntry 0 B; mkEntry 0 A]) Hne).
Defined.

(** ** Insertion and removal *)

(** X8: when [addProofIfNoConflict(p)] returns [SUCCEED] on a pool left by a
    history of calls, [removeProof(p)] right after it gives back the pool as
    it was before the insertion, and returns [true] exactly when [p] has a
    stake. *)
Theorem insert_then_remove :
  ∀ (compare : ProofRef → ProofRef → bool) (p : ProofRef)
    (cps0 cps : ConflictingProofSet) (pool pool' : ProofPool),
    reachable compare pool →
    addProofIfNoConflict compare p cps0 pool = Ok (SUCCEED, cps, pool') →
    (removeProof p pool').2 = pool
    ∧ ((removeProof p pool').1 = true ↔ getStakes p ≠ []).
Proof.
  intros compare p cps0 cps pool pool' Hreach Hrun.
  pose proof (reachable_inv compare pool Hreach) as Hinv.
  apply addProofIfNoConflict_inv in Hrun; [|by apply inv_unique].
  destruct Hrun as [(? & _)|[(? & _)|(_ & Hid & Hnd & Hcoll & _ & ->)]];
    [done|done|].
  pose proof (proj1 (find_proofid_None _ _) Hid) as Hother.
  split.
  - rewrite removeProof_pool, filter_app, filter_all by done.
    rewrite filter_none; [by rewrite app_nil_r|].
    intros e [Hp _]%entries_of_elem_of Hne. apply Hne.
    unfold entryId. by rewrite Hp.
  - rewrite removeProof_found, getProof_proofid_app.
    rewrite (proj2 (getProof_proofid_None (getId p) pool)) by done.
    rewrite getProof_proofid_entries_of. split.
    + intros [q Hq] Hnil. rewrite decide_False in Hq by tauto. done.
    + intros Hne. rewrite decide_True by done. by eexists.
Qed.

Lemma insert_then_remove_witness :
  let O := mkOutPoint 1 0 in
  let P := mkOutPoint 2 0 in
  let A := mkProof 1 [P] in
  let B := mkProof 2 [O] in
  addProofIfNoConflict compareByProofId A [] [mkEntry 0 B]
  = Ok (SUCCEED, [], [mkEntry 0 B; mkEntry 0 A])
  ∧ (removeProof A [mkEntry 0 B; mkEntry 0 A]).2 = [mkEntry 0 B].
Proof.
  intros O P A B. split; [reflexivity|].
  refine (proj1 (insert_then_remove compareByProofId A [] [] [mkEntry 0 B]
                   [mkEntry 0 B; mkEntry 0 A] _ _)).
  - exists [AddProofIfNoConflict B]. reflexivity.
  - reflexivity.
Defined.

(** X9: in a pool left by a history of calls, a proof that [getProof]
    returns for its identifier can be removed and inserted again:
    [addProofIfNoConflict] then returns [SUCCEED] with no conflict, and the
    pool has the entries it had before the removal. *)
Theorem remove_then_insert :
  ∀ (compare : ProofRef → ProofRef → bool) (p : ProofRef)
    (cps0 : ConflictingProofSet) (pool : ProofPool),
    reachable compare pool →
    getProof_proofid (getId p) pool = Some p →
    ∃ pool',
      addProofIfNoConflict compare p cps0 (removeProof p pool).2
      = Ok (SUCCEED, [], pool')
      ∧ pool' ≡ₚ pool.
Proof.
  intros compare p cps0 pool Hreach Hp.
  pose proof (reachable_inv compare pool Hreach) as Hinv.
  pose proof (inv_unique pool Hinv) as Hu.
  apply getProof_proofid_Some in Hp as (e & He & Hid & <-).
  destruct (pool_inv_entries pool e Hinv He) as [Hnd Hperm].
  rewrite removeProof_pool. eexists. split.
  - apply addProofIfNoConflict_succeed; [| |done|].
    + eapply unique_utxo_sublist; [apply sublist_filter|done].
    + apply find_proofid_None. by intros e' [Hne _]%list_elem_of_filter.
    + apply colliding_nil.
      intros s [j Hj]%list_elem_of_lookup
        (e' & Hk & [Hne He']%list_elem_of_filter)%list_elem_of_fmap.
      apply Hne.
      assert (Hin : mkEntry j (proof e) ∈ pool).
      { apply (inv_full pool Hinv); [done|]. by eapply lookup_lt_Some. }
      rewrite (unique_utxo_inj pool e' (mkEntry j (proof e)) Hu He' Hin); [done|].
      rewrite <- Hk. symmetry. exact Hj.
  - rewrite <- Hperm. rewrite Permutation_app_comm.
    apply (filter_app_complement (λ e', entryId e' = getId (proof e))).
Qed.

Lemma remove_then_insert_witness :
  let O := mkOutPoint 1 0 in
  let P := mkOutPoint 2 0 in
  let A := mkProof 1 [P] in
  let B := mkProof 2 [O] in
  getProof_proofid (getId B) [mkEntry 0 B; mkEntry 0 A] = Some B
  ∧ ∃ pool',
      addProofIfNoConflict compareByProofId B []
        (removeProof B [mkEntry 0 B; mkEntry 0 A]).2
      = Ok (SUCCEED, [], pool')
      ∧ pool' ≡ₚ [mkEntry 0 B; mkEntry 0 A].
Proof.
  intros O P A B. split; [reflexivity|].
  apply (remove_then_insert compareByProofId B [] [mkEntry 0 B; mkEntry 0 A]).
  - exists [AddProofIfNoConflict B; AddProofIfNoConflict A]. reflexivity.
  - reflexivity.
Defined.

(** ** When [addProofIfNoConflict] returns, and what *)

Lemma free_stakes_filter (stakes : list COutPoint) (pool : ProofPool) :
  filter (λ o, getProof_outpoint o pool = None) stakes
  = filter (λ s, Some s ∉ keys pool) stakes.
Proof. apply list_filter_iff. intros o. apply getProof_outpoint_None. Qed.

Lemma getProof_proofid_is_Some id pool :
  is_Some (getProof_proofid id pool) ↔ is_Some (find_proofid id pool).
Proof. unfold getProof_proofid. apply fmap_is_Some. Qed.

Lemma colliding_not_nil stakes pool :
  colliding stakes pool ≠ [] ↔
  ∃ o, o ∈ stakes ∧ is_Some (getProof_outpoint o pool).
Proof.
  split.
  - intros Hne. destruct (colliding stakes pool) as [|q l] eqn:Hc; [done|].
    assert (Hq : q ∈ colliding stakes pool) by (rewrite Hc; apply list_elem_of_here).
    apply list_elem_of_omap in Hq as (o & Ho & Hq). exists o. eauto.
  - intros (o & Ho & Hq) Hnil.
    pose proof (proj1 (colliding_nil _ _) Hnil o Ho) as Hfree.
    apply getProof_outpoint_None in Hfree. rewrite Hfree in Hq.
    by destruct Hq.
Qed.

(** X10: on a pool left by a history of calls, [addProofIfNoConflict]
    returns, rather than stop on an assertion, exactly when the identifier
    of the proof is in the pool or the stakes of the proof that no entry
    holds are pairwise different; and when it does not return, it is the
    assertion of the clean-up loop that failed. *)
Theorem addProofIfNoConflict_returns_iff :
  ∀ (compare : ProofRef → ProofRef → bool) (p : ProofRef)
    (cps0 : ConflictingProofSet) (pool : ProofPool),
    reachable compare pool →
    ((∃ r, addProofIfNoConflict compare p cps0 pool = Ok r)
     ↔ is_Some (getProof_proofid (getId p) pool)
       ∨ NoDup (filter (λ o, getProof_outpoint o pool = None) (getStakes p)))
    ∧ (∀ f, addProofIfNoConflict compare p cps0 pool = Err f →
            f = AssertionFailed).
Proof.
  intros compare p cps0 pool Hreach.
  pose proof (inv_unique pool (reachable_inv compare pool Hreach)) as Hu.
  rewrite free_stakes_filter, getProof_proofid_is_Some.
  destruct (find_proofid (getId p) pool) as [it|] eqn:Hid.
  { rewrite addProofIfNoConflict_duplicated by by eexists.
    split; [|done]. split; [by left|by eexists]. }
  destruct (decide (NoDup (filter (λ s, Some s ∉ keys pool) (getStakes p))))
    as [Hdist|Hdup].
  - destruct (decide (colliding (getStakes p) pool = [])) as [Hcoll|Hcoll].
    + assert (Hstakes : NoDup (getStakes p)).
      { rewrite filter_all in Hdist; [done|]. by apply colliding_nil. }
      rewrite addProofIfNoConflict_succeed by done.
      split; [|done]. split; [by right|by eexists].
    + rewrite addProofIfNoConflict_rejected by done.
      split; [|done]. split; [by right|by eexists].
  - rewrite addProofIfNoConflict_self_collision by done. split.
    + split; [by intros [r ?]|]. intros [[? ?]|?]; done.
    + by intros f [= <-].
Qed.

Lemma addProofIfNoConflict_returns_iff_witness :
  let O := mkOutPoint 1 0 in
  let A := mkProof 1 [O; O] in
  let B := mkProof 2 [O] in
  reachable compareByProofId [mkEntry 0 B]
  ∧ ∃ r, addProofIfNoConflict compareByProofId A [] [mkEntry 0 B] = Ok r.
Proof.
  intros O A B.
  assert (Hreach : reachable compareByProofId [mkEntry 0 B]).
  { exists [AddProofIfNoConflict B]. reflexivity. }
  split; [exact Hreach|].
  apply (proj1 (addProofIfNoConflict_returns_iff compareByProofId A []
                  [mkEntry 0 B] Hreach)).
  right. vm_compute. constructor.
Defined.

(** X11: when [addProofIfNoConflict] returns on a pool left by a history of
    calls, the status says where the proof stood: [DUPLICATED] exactly when
    its identifier was in the pool, [SUCCEED] exactly when it was not and
    no stake of the proof was held, [REJECTED] exactly when it was not and
    some stake was held; and unless the status is [SUCCEED] the pool is left
    as it was. *)
Theorem addProofIfNoConflict_status :
  ∀ (compare : ProofRef → ProofRef → bool) (p : ProofRef)
    (cps0 cps : ConflictingProofSet) (pool pool' : ProofPool)
    (added : AddProofStatus),
    reachable compare pool →
    addProofIfNoConflict compare p cps0 pool = Ok (added, cps, pool') →
    (added = DUPLICATED ↔ is_Some (getProof_proofid (getId p) pool))
    ∧ (added = SUCCEED ↔
       getProof_proofid (getId p) pool = None
       ∧ ∀ o, o ∈ getStakes p → getProof_outpoint o pool = None)
    ∧ (added = REJECTED ↔
       getProof_proofid (getId p) pool = None
       ∧ ∃ o, o ∈ getStakes p ∧ is_Some (getProof_outpoint o pool))
    ∧ (added ≠ SUCCEED → pool' = pool).
Proof.
  intros compare p cps0 cps pool pool' added Hreach Hrun.
  pose proof (inv_unique pool (reachable_inv compare pool Hreach)) as Hu.
  assert (Hfree : colliding (getStakes p) pool = [] ↔
                  ∀ o, o ∈ getStakes p → getProof_outpoint o pool = None).
  { rewrite colliding_nil. by setoid_rewrite getProof_outpoint_None. }
  rewrite <- Hfree, <- colliding_not_nil, getProof_proofid_is_Some.
  unfold getProof_proofid. rewrite fmap_None.
  apply addProofIfNoConflict_inv in Hrun; [|done].
  destruct Hrun as [(-> & Hid & _ & ->)
                   |[(-> & Hid & Hcoll & _ & ->)
                    |(-> & Hid & _ & Hcoll & _ & ->)]].
  - destruct Hid as [it Hid]. rewrite Hid.
    split_and!; try done; (split; [done|by intros [? ?]]).
  - rewrite Hid. split_and!; try done; (split; [done|by intros [? ?]]).
  - rewrite Hid. split_and!; try done; (split; [done|by intros [? ?]]).
Qed.

Lemma addProofIfNoConflict_status_witness :
  let O := mkOutPoint 1 0 in
  let P := mkOutPoint 2 0 in
  let A := mkProof 1 [O; P] in
  let B := mkProof 2 [O] in
  addProofIfNoConflict compareByProofId A [] [mkEntry 0 B]
  = Ok (REJECTED, [B], [mkEntry 0 B])
  ∧ getProof_proofid (getId A) [mkEntry 0 B] = None
  ∧ ∃ o, o ∈ getStakes A ∧ is_Some (getProof_outpoint o [mkEntry 0 B]).
Proof.
  intros O P A B. split; [reflexivity|].
  refine (proj1 (proj1 (proj2 (proj2
    (addProofIfNoConflict_status compareByProofId A [] [B] [mkEntry 0 B]
       [mkEntry 0 B] REJECTED _ _)))) eq_refl).
  - exists [AddProofIfNoConflict B]. reflexivity.
  - reflexivity.
Defined.

(** ** [addProofIfPreferred], case by case *)

Lemma filter_ext_elem {A} (P Q : A → Prop) `{∀ x, Decision (P x)}
    `{∀ x, Decision (Q x)} (l : list A) :
  (∀ x, x ∈ l → P x ↔ Q x) → filter P l = filter Q l.
Proof.
  induction l as [|x l IH]; intros Hext; [done|].
  rewrite !filter_cons.
  rewrite IH by (intros y Hy; by apply Hext, list_elem_of_further).
  pose proof (Hext x (list_elem_of_here _ _)) as Hx.
  destruct (decide (P x)), (decide (Q x)); tauto || done.
Qed.

Section PreferenceCases.
Variable compare : ProofRef → ProofRef → bool.

Lemma addProofIfPreferred_duplicated p cps0 pool :
  is_Some (find_proofid (getId p) pool) →
  addProofIfPreferred compare p cps0 pool = Ok (DUPLICATED, [], pool).
Proof.
  intros Hid. unfold addProofIfPreferred.
  by rewrite addProofIfNoConflict_duplicated.
Qed.

Lemma addProofIfPreferred_no_conflict p cps0 pool :
  unique_utxo pool → find_proofid (getId p) pool = None →
  NoDup (getStakes p) → colliding (getStakes p) pool = [] →
  addProofIfPreferred compare p cps0 pool
  = Ok (SUCCEED, [], pool ++ entries_of p).
Proof.
  intros Hu Hid Hnd Hcoll. unfold addProofIfPreferred.
  by rewrite addProofIfNoConflict_succeed.
Qed.

(** The ways in which [addProofIfPreferred] returns: the three of
    [addProofIfNoConflict], and the one where the conflicting proofs are
    removed and the retry adds the candidate. *)
Lemma addProofIfPreferred_inv p cps0 pool added cps pool' :
  unique_utxo pool →
  addProofIfPreferred compare p cps0 pool = Ok (added, cps, pool') →
  (added = DUPLICATED ∧ is_Some (find_proofid (getId p) pool)
   ∧ cps = [] ∧ pool' = pool)
  ∨ (added = REJECTED ∧ find_proofid (getId p) pool = None
     ∧ cps = insert_all compare [] (colliding (getStakes p) pool)
     ∧ (∃ best rest, cps = best :: rest ∧ compare p best = false)
     ∧ pool' = pool)
  ∨ (added = SUCCEED ∧ find_proofid (getId p) pool = None
     ∧ NoDup (getStakes p)
     ∧ cps = insert_all compare [] (colliding (getStakes p) pool)
     ∧ (cps = [] ∨ ∃ best rest, cps = best :: rest ∧ compare p best = true)
     ∧ colliding (getStakes p)
         (filter (λ e, entryId e ∉ getId <$> cps) pool) = []
     ∧ pool' = filter (λ e, entryId e ∉ getId <$> cps) pool ++ entries_of p).
Proof.
  intros Hu. unfold addProofIfPreferred.
  destruct (addProofIfNoConflict compare p cps0 pool)
    as [[[added1 cps1] pool1]|f] eqn:Hfirst; [|done].
  apply addProofIfNoConflict_inv in Hfirst; [|done].
  destruct Hfirst as [(-> & Hid & -> & ->)
                     |[(-> & Hid & Hcoll & Hcps & ->)
                      |(-> & Hid & Hnd & Hcoll & -> & ->)]];
    cbn [mbind result_bind not_added].
  - intros [= <- <- <-]. by left.
  - destruct cps1 as [|best rest]; [done|].
    destruct (compare p best) eqn:Hbest.
    + rewrite (remove_conflicting compare).
      destruct (addProofIfNoConflict compare p [] _)
        as [[[added2 cps2] pool2]|f] eqn:Hretry; [|done].
      cbn [mbind result_bind].
      destruct (decide (added2 = SUCCEED)) as [->|]; [|done].
      intros [= <- <- <-].
      apply (addProofIfNoConflict_inv compare) in Hretry.
      2: { eapply unique_utxo_sublist; [apply sublist_filter|done]. }
      destruct Hretry as [(? & _)|[(? & _)|(_ & _ & Hnd & Hfree & _ & ->)]];
        [done|done|].
      right; right. split_and!; try done. right. by exists best, rest.
    + intros [= <- <- <-]. right; left. split_and!; try done.
      by exists best, rest.
  - intros [= <- <- <-]. right; right.
    rewrite Hcoll. cbn [insert_all foldl]. rewrite fmap_nil.
    assert (Hall : filter (λ e : ProofPoolEntry, entryId e ∉ []) pool = pool).
    { apply filter_all. intros e _. apply not_elem_of_nil. }
    rewrite Hall. split_and!; try done. by left.
Qed.

End PreferenceCases.

(** X12: with a comparator that is a strict total order, on a pool left by
    a history of calls and for a candidate whose stakes are pairwise
    different, [addProofIfPreferred] returns: neither the assertion of the
    clean-up loop nor the assertion on the retry fails. It returns
    [DUPLICATED] exactly when the identifier of the candidate was in the
    pool. *)
Theorem addProofIfPreferred_returns :
  ∀ (compare : ProofRef → ProofRef → bool) (p : ProofRef)
    (cps0 : ConflictingProofSet) (pool : ProofPool),
    strict_total compare →
    reachable compare pool →
    NoDup (getStakes p) →
    ∃ added cps pool',
      addProofIfPreferred compare p cps0 pool = Ok (added, cps, pool')
      ∧ (added = DUPLICATED ↔ is_Some (getProof_proofid (getId p) pool)).
Proof.
  intros compare p cps0 pool Hc Hreach Hnd.
  pose proof (reachable_inv compare pool Hreach) as Hinv.
  pose proof (inv_unique pool Hinv) as Hu.
  setoid_rewrite getProof_proofid_is_Some.
  destruct (find_proofid (getId p) pool) as [it|] eqn:Hid.
  { eexists _, _, _. split.
    - apply addProofIfPreferred_duplicated. rewrite Hid. by eexists.
    - split; [by eexists|done]. }
  assert (Hno : ∀ added : AddProofStatus, added ≠ DUPLICATED →
                added = DUPLICATED ↔ is_Some (@None (nat * ProofPoolEntry))).
  { intros added Hne. split; [done|by intros [? ?]]. }
  destruct (insert_all compare [] (colliding (getStakes p) pool))
    as [|best rest] eqn:Hcps.
  - apply insert_all_nil in Hcps as [_ Hcoll]. eexists _, _, _. split.
    + by apply addProofIfPreferred_no_conflict.
    + by apply Hno.
  - destruct (compare p best) eqn:Hbest; eexists _, _, _; split.
    + by apply addProofIfPreferred_override.
    + by apply Hno.
    + by apply addProofIfPreferred_keep.
    + by apply Hno.
Qed.

Lemma addProofIfPreferred_returns_witness :
  let O := mkOutPoint 1 0 in
  let P := mkOutPoint 2 0 in
  let A := mkProof 1 [O; P] in
  let B := mkProof 2 [O] in
  reachable compareByProofId [mkEntry 0 B]
  ∧ ∃ added cps pool',
      addProofIfPreferred compareByProofId A [] [mkEntry 0 B]
      = Ok (added, cps, pool')
      ∧ (added = DUPLICATED
         ↔ is_Some (getProof_proofid (getId A) [mkEntry 0 B])).
Proof.
  intros O P A B.
  assert (Hreach : reachable compareByProofId [mkEntry 0 B]).
  { exists [AddProofIfNoConflict B]. reflexivity. }
  split; [exact Hreach|].
  apply (addProofIfPreferred_returns compareByProofId A [] [mkEntry 0 B]
           compareByProofId_strict_total Hreach).
  apply NoDup_cons. split; [|apply NoDup_singleton].
  intros H%list_elem_of_singleton. discriminate H.
Defined.

(** X13: when [addProofIfPreferred(p)] returns [SUCCEED] on a pool left by a
    history of calls, every proof reported as conflicting is gone from the
    pool with all its entries, and the by-output index is as follows: the
    stakes of [p] are held by [p]; any other outpoint that a conflicting
    proof held is free, also when [p] does not stake it; every other
    outpoint is held as before. *)
Theorem override_evicts_whole_proofs :
  ∀ (compare : ProofRef → ProofRef → bool) (p : ProofRef)
    (cps0 cps : ConflictingProofSet) (pool pool' : ProofPool),
    reachable compare pool →
    addProofIfPreferred compare p cps0 pool = Ok (SUCCEED, cps, pool') →
    (∀ q, q ∈ cps → getProof_proofid (getId q) pool' = None)
    ∧ (∀ o, getProof_outpoint o pool'
            = if decide (o ∈ getStakes p) then Some p
              else match getProof_outpoint o pool with
                   | Some q =>
                       if decide (getId q ∈ getId <$> cps) then None
                       else Some q
                   | None => None
                   end).
Proof.
  intros compare p cps0 cps pool pool' Hreach Hrun.
  pose proof (reachable_inv compare pool Hreach) as Hinv.
  pose proof (inv_unique pool Hinv) as Hu.
  apply addProofIfPreferred_inv in Hrun; [|done].
  destruct Hrun as [(? & _)|[(? & _)
                   |(_ & Hid & Hnd & Hcps & _ & Hfree & ->)]]; [done|done|].
  split.
  - intros q Hq. rewrite getProof_proofid_app.
    pose proof (getProof_proofid_filter (λ i, i ∉ getId <$> cps)
                  (getId q) pool) as Hfilter.
    simpl in Hfilter. rewrite Hfilter.
    rewrite decide_False by (intros Hn; by apply Hn, list_elem_of_fmap_2).
    rewrite getProof_proofid_entries_of. rewrite decide_False; [done|].
    intros [Heq _]. rewrite Hcps in Hq.
    apply insert_all_elem_of in Hq as [Hq|Hq]; [by apply elem_of_nil in Hq|].
    apply (colliding_elem_of _ _ _ Hu) in Hq as (o & _ & e & He & <- & _).
    apply (proj1 (find_proofid_None _ _) Hid e He). by symmetry.
  - intros o. rewrite getProof_outpoint_app, getProof_outpoint_entries_of.
    destruct (decide (o ∈ getStakes p)) as [Ho|Ho].
    + rewrite (proj2 (getProof_outpoint_None o _)); [done|].
      by apply (proj1 (colliding_nil _ _) Hfree).
    + rewrite getProof_outpoint_filter by done. unfold getProof_outpoint.
      destruct (find_utxo o pool) as [[it e]|]; [|done]. simpl.
      unfold entryId.
      destruct (decide (getId (proof e) ∈ getId <$> cps));
        [by rewrite decide_False by tauto|by rewrite decide_True].
Qed.

Lemma override_evicts_whole_proofs_witness :
  let O := mkOutPoint 1 0 in
  let P := mkOutPoint 2 0 in
  let Q := mkOutPoint 3 0 in
  let A := mkProof 1 [O; P] in
  let B := mkProof 2 [O; Q] in
  addProofIfPreferred compareByProofId A [] [mkEntry 0 B; mkEntry 1 B]
  = Ok (SUCCEED, [B], [mkEntry 0 A; mkEntry 1 A])
  ∧ getProof_outpoint Q [mkEntry 0 B; mkEntry 1 B] = Some B
  ∧ getProof_outpoint Q [mkEntry 0 A; mkEntry 1 A] = None.
Proof.
  intros O P Q A B. split; [reflexivity|]. split; [reflexivity|].
  refine (eq_trans (proj2 (override_evicts_whole_proofs compareByProofId A []
                     [B] [mkEntry 0 B; mkEntry 1 B] [mkEntry 0 A; mkEntry 1 A]
                     _ _) Q) _).
  - exists [AddProofIfNoConflict B]. reflexivity.
  - reflexivity.
  - reflexivity.
Defined.

(** X14: with a comparator that is a strict total order, when
    [addProofIfPreferred(p)] returns [REJECTED] on a pool left by a history
    of calls, the pool is left as it was; the conflicting proofs reported
    are not empty, hold each a stake of [p], and start with one that is
    preferred to all the others and to which [p] is not preferred. *)
Theorem preferred_rejected_keeps_pool :
  ∀ (compare : ProofRef → ProofRef → bool) (p : ProofRef)
    (cps0 cps : ConflictingProofSet) (pool pool' : ProofPool),
    strict_total compare →
    reachable compare pool →
    addProofIfPreferred compare p cps0 pool = Ok (REJECTED, cps, pool') →
    pool' = pool
    ∧ ∃ best rest,
        cps = best :: rest
        ∧ compare p best = false
        ∧ (∀ q, q ∈ rest → compare best q = true)
        ∧ (∀ q, q ∈ cps →
                ∃ o, o ∈ getStakes p ∧ getProof_outpoint o pool = Some q).
Proof.
  intros compare p cps0 cps pool pool' Hc Hreach Hrun.
  pose proof (inv_unique pool (reachable_inv compare pool Hreach)) as Hu.
  apply addProofIfPreferred_inv in Hrun; [|done].
  destruct Hrun as [(? & _)|[(_ & Hid & Hcps & (best & rest & Heq & Hbest) & ->)
                            |(? & _)]]; [done| |done].
  split; [done|]. exists best, rest. split_and!; [done|done| |].
  - assert (Hs : StronglySorted (λ a b, compare a b = true) cps).
    { rewrite Hcps. apply insert_all_sorted; [done|constructor]. }
    rewrite Heq in Hs. apply StronglySorted_cons in Hs as [Hall _].
    intros q Hq. by eapply Forall_forall in Hall.
  - intros q Hq. rewrite Hcps in Hq.
    apply insert_all_elem_of in Hq as [Hq|Hq]; [by apply elem_of_nil in Hq|].
    by apply list_elem_of_omap in Hq.
Qed.

Lemma preferred_rejected_keeps_pool_witness :
  let O := mkOutPoint 1 0 in
  let P := mkOutPoint 2 0 in
  let A := mkProof 2 [O; P] in
  let B := mkProof 3 [O] in
  let C := mkProof 1 [P] in
  let pool := [mkEntry 0 B; mkEntry 0 C] in
  addProofIfPreferred compareByProofId A [] pool = Ok (REJECTED, [C; B], pool)
  ∧ ∃ best rest,
      [C; B] = best :: rest
      ∧ compareByProofId A best = false
      ∧ (∀ q, q ∈ rest → compareByProofId best q = true)
      ∧ (∀ q, q ∈ [C; B] →
              ∃ o, o ∈ getStakes A ∧ getProof_outpoint o pool = Some q).
Proof.
  intros O P A B C pool. split; [reflexivity|].
  refine (proj2 (preferred_rejected_keeps_pool compareByProofId A [] [C; B]
                   pool pool compareByProofId_strict_total _ _)).
  - exists [AddProofIfNoConflict B; AddProofIfNoConflict C]. reflexivity.
  - reflexivity.
Defined.

(** X15: when [addProofIfNoConflict(p)] returns [REJECTED] on a pool left by
    a history of calls, the conflicting proofs are not empty and [p] is not
    one of them: each has an identifier other than that of [p] and is the
    proof that [getProof] returns for its identifier. *)
Theorem rejected_conflicts_are_pool_proofs :
  ∀ (compare : ProofRef → ProofRef → bool) (p : ProofRef)
    (cps0 cps : ConflictingProofSet) (pool pool' : ProofPool),
    reachable compare pool →
    addProofIfNoConflict compare p cps0 pool = Ok (REJECTED, cps, pool') →
    cps ≠ []
    ∧ (p ∉ cps)
    ∧ ∀ q, q ∈ cps →
           getId q ≠ getId p ∧ getProof_proofid (getId q) pool = Some q.
Proof.
  intros compare p cps0 cps pool pool' Hreach Hrun.
  pose proof (reachable_inv compare pool Hreach) as Hinv.
  pose proof (inv_unique pool Hinv) as Hu.
  apply addProofIfNoConflict_inv in Hrun; [|done].
  destruct Hrun as [(? & _)|[(_ & Hid & Hcoll & -> & ->)|(? & _)]];
    [done| |done].
  assert (Hall : ∀ q, q ∈ insert_all compare [] (colliding (getStakes p) pool) →
            getId q ≠ getId p ∧ getProof_proofid (getId q) pool = Some q).
  { intros q [Hq|Hq]%insert_all_elem_of; [by apply elem_of_nil in Hq|].
    apply (colliding_elem_of _ _ _ Hu) in Hq as (o & _ & e & He & <- & _).
    split; [by apply (proj1 (find_proofid_None _ _) Hid)|].
    by apply (getProof_proofid_elem_of pool e). }
  split_and!; [|intros Hp|done].
  - intros Hnil. by apply insert_all_nil in Hnil as [_ ?].
  - by destruct (Hall p Hp).
Qed.

Lemma rejected_conflicts_are_pool_proofs_witness :
  let O := mkOutPoint 1 0 in
  let P := mkOutPoint 2 0 in
  let A := mkProof 1 [O; P] in
  let B := mkProof 2 [O] in
  addProofIfNoConflict compareByProofId A [] [mkEntry 0 B]
  = Ok (REJECTED, [B], [mkEntry 0 B])
  ∧ (A ∉ [B]).
Proof.
  intros O P A B. split; [reflexivity|].
  refine (proj1 (proj2 (rejected_conflicts_are_pool_proofs compareByProofId
                          A [] [B] [mkEntry 0 B] [mkEntry 0 B] _ _))).
  - exists [AddProofIfNoConflict B]. reflexivity.
  - reflexivity.
Defined.

(** ** Rescan *)

Lemma filter_proofs p (pool : ProofPool) :
  filter (λ q, q = p) (proof <$> pool)
  = proof <$> filter (λ e, proof e = p) pool.
Proof.
  induction pool as [|e pool IH]; [done|].
  rewrite fmap_cons, !filter_cons.
  destruct (decide (proof e = p)); by rewrite ?fmap_cons, IH.
Qed.

(** X16: on a pool left by a history of calls, [rescan] calls
    [registerProof] on the proofs of the entries one after the other, so a
    proof of the pool is registered once for each of its stakes, and a proof
    that is not in the pool is not registered. *)
Theorem rescan_registers_once_per_stake :
  ∀ (compare : ProofRef → ProofRef → bool)
    (registerProof : ProofRef → PeerManager → PeerManager)
    (pm : PeerManager) (pool : ProofPool),
    reachable compare pool →
    ∃ registered : list ProofRef,
      (rescan registerProof pm pool).1
      = foldl (λ pm q, registerProof q pm) pm registered
      ∧ (∀ p, getProof_proofid (getId p) pool = Some p →
              length (filter (λ q, q = p) registered)
              = length (getStakes p))
      ∧ (∀ p, getProof_proofid (getId p) pool ≠ Some p → p ∉ registered).
Proof.
  intros compare registerProof pm pool Hreach.
  pose proof (reachable_inv compare pool Hreach) as Hinv.
  exists (proof <$> pool). split_and!.
  - unfold rescan. simpl. by rewrite foldl_fmap.
  - intros p Hp.
    apply getProof_proofid_Some in Hp as (e & He & Hid & <-).
    destruct (pool_inv_entries pool e Hinv He) as [_ Hperm].
    rewrite filter_proofs, length_fmap.
    rewrite (filter_ext_elem (λ e', proof e' = proof e)
               (λ e', entryId e' = entryId e)).
    + rewrite Hperm. unfold entries_of. by rewrite length_fmap, length_seq.
    + intros e' He'. split; [|by apply (inv_ids pool Hinv)].
      intros Heq. unfold entryId. by rewrite Heq.
  - intros p Hp (e & -> & He)%list_elem_of_fmap. apply Hp.
    by apply (getProof_proofid_elem_of pool e).
Qed.

Lemma rescan_registers_once_per_stake_witness :
  let O := mkOutPoint 1 0 in
  let P := mkOutPoint 2 0 in
  let A := mkProof 1 [O; P] in
  let count (q : ProofRef) (pm : PeerManager) :=
    mkPeerManager (slots pm) (slotCount pm + 1) (fragmentation pm) in
  reachable compareByProofId [mkEntry 0 A; mkEntry 1 A]
  ∧ ∃ registered : list ProofRef,
      (rescan count (mkPeerManager [] 0 0) [mkEntry 0 A; mkEntry 1 A]).1
      = foldl (λ pm q, count q pm) (mkPeerManager [] 0 0) registered
      ∧ (∀ p, getProof_proofid (getId p) [mkEntry 0 A; mkEntry 1 A] = Some p →
              length (filter (λ q, q = p) registered)
              = length (getStakes p))
      ∧ (∀ p, getProof_proofid (getId p) [mkEntry 0 A; mkEntry 1 A] ≠ Some p →
              p ∉ registered).
Proof.
  intros O P A count.
  assert (Hreach : reachable compareByProofId [mkEntry 0 A; mkEntry 1 A]).
  { exists [AddProofIfNoConflict A]. reflexivity. }
  split; [exact Hreach|].
  exact (rescan_registers_once_per_stake compareByProofId count
           (mkPeerManager [] 0 0) [mkEntry 0 A; mkEntry 1 A] Hreach).
Defined.

(** ** Slots *)

(** X17: a value is in a slot exactly when the slot neither precedes nor
    follows it, for every slot, also one with [stop < start]; and a slot
    with [stop <= start] contains no value. *)
Theorem contains_iff_neither :
  ∀ (s : Slot) (x : Z),
    contains s x = negb (precedes s x) && negb (follows s x)
    ∧ ((stop s <= start s)%Z → contains s x = false).
Proof.
  intros [a b] x. unfold contains, precedes, follows. simpl.
  rewrite Z.geb_leb, Z.gtb_ltb.
  destruct (Z.leb_spec a x), (Z.ltb_spec x b), (Z.leb_spec b x),
    (Z.ltb_spec x a); simpl; split; try done; lia.
Qed.

Lemma contains_iff_neither_witness :
  (stop (mkSlot 7 7) <= start (mkSlot 7 7))%Z
  ∧ contains (mkSlot 7 7) 7 = false.
Proof.
  assert (H : (stop (mkSlot 7 7) <= start (mkSlot 7 7))%Z) by (simpl; lia).
  split; [exact H|].
  exact (proj2 (contains_iff_neither (mkSlot 7 7) 7%Z) H).
Defined.

(** X18: when a slot [a] stops where a slot [b] starts or before, [b]
    follows every value of [a] and [a] precedes every value of [b], so no
    value is in both. *)
Theorem ordered_slots_are_disjoint :
  ∀ (a b : Slot) (x : Z),
    (stop a <= start b)%Z →
    (contains a x = true → follows b x = true ∧ contains b x = false)
    ∧ (contains b x = true → precedes a x = true ∧ contains a x = false).
Proof.
  intros [sa ea] [sb eb] x. unfold contains, precedes, follows. simpl.
  rewrite Z.geb_leb, Z.gtb_ltb, !andb_true_iff, !andb_false_iff.
  rewrite !Z.leb_le, !Z.ltb_lt, !Z.leb_gt, !Z.ltb_ge. lia.
Qed.

Lemma ordered_slots_are_disjoint_witness :
  (stop (mkSlot 0 10) <= start (mkSlot 10 30))%Z
  ∧ (contains (mkSlot 10 30) 15 = true →
     precedes (mkSlot 0 10) 15 = true ∧ contains (mkSlot 0 10) 15 = false).
Proof.
  assert (H : (stop (mkSlot 0 10) <= start (mkSlot 10 30))%Z) by (simpl; lia).
  split; [exact H|].
  exact (proj2 (ordered_slots_are_disjoint (mkSlot 0 10) (mkSlot 10 30) 15%Z H)).
Defined.

(** X19: a slot that precedes a value precedes every greater one, and a
    slot that follows a value follows every smaller one: the two tests cut
    a sorted sequence of slots in one place each. *)
Theorem precedes_follows_monotone :
  ∀ (s : Slot) (x y : Z),
    (x <= y)%Z →
    (precedes s x = true → precedes s y = true)
    ∧ (follows s y = true → follows s x = true).
Proof.
  intros [a b] x y Hxy. unfold precedes, follows. simpl.
  rewrite !Z.geb_leb, !Z.gtb_ltb, !Z.leb_le, !Z.ltb_lt. lia.
Qed.

Lemma precedes_follows_monotone_witness :
  (15 <= 59)%Z
  ∧ (precedes (mkSlot 0 10) 15 = true → precedes (mkSlot 0 10) 59 = true).
Proof.
  assert (H : (15 <= 59)%Z) by lia.
  split; [exact H|].
  exact (proj1 (precedes_follows_monotone (mkSlot 0 10) 15%Z 59%Z H)).
Defined.

(** ** Edge cases of [addProofIfNoConflict] *)

(** X20: with a comparator that is a strict total order, on a pool left by
    a history of calls and for a candidate whose stakes are pairwise
    different: after [addProofIfNoConflict] returned [REJECTED], removing
    every conflicting proof it reported makes a second
    [addProofIfNoConflict] return [SUCCEED]. *)
Theorem remove_conflicts_then_insert :
  ∀ (compare : ProofRef → ProofRef → bool) (p : ProofRef)
    (cps0 cps1 cps : ConflictingProofSet) (pool pool' : ProofPool),
    strict_total compare →
    reachable compare pool →
    NoDup (getStakes p) →
    addProofIfNoConflict compare p cps0 pool = Ok (REJECTED, cps, pool') →
    let pool2 := foldl (λ pool c, (removeProof c pool).2) pool' cps in
    addProofIfNoConflict compare p cps1 pool2
    = Ok (SUCCEED, [], pool2 ++ entries_of p).
Proof.
  intros compare p cps0 cps1 cps pool pool' Hc Hreach Hnd Hrun pool2.
  pose proof (reachable_inv compare pool Hreach) as Hinv.
  apply addProofIfNoConflict_inv in Hrun; [|by apply inv_unique].
  destruct Hrun as [(? & _)|[(_ & Hid & _ & Hcps & Hpool)|(? & _)]];
    [done| |done].
  unfold pool2. rewrite Hpool, Hcps, (remove_conflicting compare).
  apply addProofIfNoConflict_succeed; [| |done|].
  - eapply unique_utxo_sublist; [apply sublist_filter|by apply inv_unique].
  - apply find_proofid_None. intros e [_ He]%list_elem_of_filter.
    by apply (proj1 (find_proofid_None _ _) Hid).
  - apply (stakes_free_after_removal compare Hc). by apply inv_unique.
Qed.

Lemma remove_conflicts_then_insert_witness :
  let O := mkOutPoint 1 0 in
  let P := mkOutPoint 2 0 in
  let A := mkProof 3 [O; P] in
  let B := mkProof 2 [O] in
  addProofIfNoConflict compareByProofId A [] [mkEntry 0 B]
  = Ok (REJECTED, [B], [mkEntry 0 B])
  ∧ addProofIfNoConflict compareByProofId A [] (removeProof B [mkEntry 0 B]).2
    = Ok (SUCCEED, [], (removeProof B [mkEntry 0 B]).2 ++ entries_of A).
Proof.
  intros O P A B. split; [reflexivity|].
  refine (remove_conflicts_then_insert compareByProofId A [] [] [B]
            [mkEntry 0 B] [mkEntry 0 B] compareByProofId_strict_total _ _ _).
  - exists [AddProofIfNoConflict B]. reflexivity.
  - apply NoDup_cons. split; [|apply NoDup_singleton].
    intros H%list_elem_of_singleton. discriminate H.
  - reflexivity.
Defined.

(** X21: on a pool left by a history of calls, a proof whose identifier is
    not in the pool, with at least one stake and all its stakes held by
    entries of the pool, gets [REJECTED] and the pool is left as it was,
    also when it lists an outpoint more than once. *)
Theorem all_stakes_held_is_rejected :
  ∀ (compare : ProofRef → ProofRef → bool) (p : ProofRef)
    (cps0 : ConflictingProofSet) (pool : ProofPool),
    reachable compare pool →
    getProof_proofid (getId p) pool = None →
    getStakes p ≠ [] →
    (∀ o, o ∈ getStakes p → is_Some (getProof_outpoint o pool)) →
    ∃ cps, addProofIfNoConflict compare p cps0 pool = Ok (REJECTED, cps, pool).
Proof.
  intros compare p cps0 pool Hreach Hid Hne Hheld.
  pose proof (inv_unique pool (reachable_inv compare pool Hreach)) as Hu.
  eexists. apply addProofIfNoConflict_rejected; [done| | |].
  - unfold getProof_proofid in Hid. by apply fmap_None in Hid.
  - rewrite filter_none; [constructor|].
    intros o Ho Hfree. apply getProof_outpoint_None in Hfree.
    destruct (Hheld o Ho) as [q Hq]. congruence.
  - apply colliding_not_nil. destruct (getStakes p) as [|o l]; [done|].
    exists o. split; [apply list_elem_of_here|apply Hheld, list_elem_of_here].
Qed.

Lemma all_stakes_held_is_rejected_witness :
  let O := mkOutPoint 1 0 in
  let A := mkProof 1 [O; O] in
  let B := mkProof 2 [O] in
  ∃ cps,
    addProofIfNoConflict compareByProofId A [] [mkEntry 0 B]
    = Ok (REJECTED, cps, [mkEntry 0 B]).
Proof.
  intros O A B.
  apply (all_stakes_held_is_rejected compareByProofId A [] [mkEntry 0 B]).
  - exists [AddProofIfNoConflict B]. reflexivity.
  - reflexivity.
  - discriminate.
  - intros o Ho. apply elem_of_cons in Ho as [->|Ho].
    + by eexists.
    + apply list_elem_of_singleton in Ho. rewrite Ho. by eexists.
Defined.

(** X22: a proof without stakes leaves no trace: when its identifier is not
    in the pool, [addProofIfNoConflict] returns [SUCCEED] with the pool as
    it was, so [getProof] still has no proof for its identifier and
    [removeProof] returns [false]. *)
Theorem proof_without_stakes_leaves_no_trace :
  ∀ (compare : ProofRef → ProofRef → bool) (p : ProofRef)
    (cps0 : ConflictingProofSet) (pool : ProofPool),
    getStakes p = [] →
    getProof_proofid (getId p) pool = None →
    addProofIfNoConflict compare p cps0 pool = Ok (SUCCEED, [], pool)
    ∧ removeProof p pool = (false, pool).
Proof.
  intros compare p cps0 pool Hnil Hid. split.
  - unfold addProofIfNoConflict.
    unfold getProof_proofid in Hid. apply fmap_None in Hid.
    by rewrite Hid, Hnil.
  - pose proof (proj1 (getProof_proofid_None _ _) Hid) as Hother.
    unfold removeProof, erase_proofid. simpl.
    by rewrite filter_none, filter_all.
Qed.

Lemma proof_without_stakes_leaves_no_trace_witness :
  let O := mkOutPoint 1 0 in
  let B := mkProof 2 [O] in
  let E := mkProof 7 [] in
  addProofIfNoConflict compareByProofId E [] [mkEntry 0 B]
  = Ok (SUCCEED, [], [mkEntry 0 B])
  ∧ removeProof E [mkEntry 0 B] = (false, [mkEntry 0 B]).
Proof.
  intros O B E.
  apply (proof_without_stakes_leaves_no_trace compareByProofId E []
           [mkEntry 0 B]); reflexivity.
Defined.
